(** * Constant-product markets: discovery, grouping, reserve synchronisation
      and swap quotation

    A shallow embedding of [src/UniswappyV2EthPair.ts] (and of the constant
    [ETHER] of [src/utils.ts]), followed by the properties established about
    it.  Amounts are [ethers] [BigNumber]s: signed integers of arbitrary
    precision, embedded as [Z].  Plain JavaScript objects used as dictionaries
    are finite maps from property names to values. *)

From Stdlib Require Import ZArith Lia.
From stdpp Require Import gmap strings list fin_maps.

(** ** Exceptions *)

(** Everything the modelled code can throw.  The strings are the messages of
    the [Error]s of the source; the first three cases are raised by [ethers]
    and by the runtime. *)
Inductive error : Type :=
  | DivisionByZero          (* BigNumber.div: NUMERIC_FAULT "division-by-zero" *)
  | NotABigNumber           (* a BigNumber method reached through, or applied
                               to, a value that is not a BigNumber *)
  | UndefinedReserve        (* TypeError: reading [reserve[0]] of [undefined] *)
  | BadToken                (* Error("bad token") *)
  | BadTokenInputAddress    (* Error("Bad token input address") *)
  | MarketDoesNotOperateOnToken (* Error(`Market does not operate on token ..`) *)
  | InvalidAmount           (* Error(`Invalid amount: ..`) *)
  | HI.                     (* Error("HI") *)

Inductive result (A : Type) : Type :=
  | Ok (a : A)
  | Throw (e : error).
Arguments Ok {A} a.
Arguments Throw {A} e.

#[global] Instance result_ret : MRet result := fun _ a => Ok a.
#[global] Instance result_bind : MBind result := fun _ _ f r =>
  match r with
  | Ok a => f a
  | Throw e => Throw e
  end.

(** ** [BigNumber] (ethers v5) *)

Module BigNumber.

(** [from], [add], [sub] and [mul] are exact on integers of any size. *)
Definition from (n : Z) : Z := n.
Definition add (a b : Z) : Z := (a + b)%Z.
Definition sub (a b : Z) : Z := (a - b)%Z.
Definition mul (a b : Z) : Z := (a * b)%Z.
Definition pow (a b : Z) : Z := (a ^ b)%Z.

(** [div] rounds toward zero and throws on a zero divisor. *)
Definition div (a b : Z) : result Z :=
  if bool_decide (b = 0%Z) then Throw DivisionByZero else Ok (Z.quot a b).

Definition gt (a b : Z) : bool := bool_decide (b < a)%Z.

End BigNumber.

(** [src/utils.ts]: [ETHER = BigNumber.from(10).pow(18)]. *)
Definition ETHER : Z := BigNumber.pow (BigNumber.from 10) 18.

(** ** Swap arithmetic *)

(** [getAmountIn] (source lines 238-242). *)
Definition getAmountIn (reserveIn reserveOut amountOut : Z) : result Z :=
  let numerator := BigNumber.mul (BigNumber.mul reserveIn amountOut) 1000 in
  let denominator := BigNumber.mul (BigNumber.sub reserveOut amountOut) 997 in
  q ← BigNumber.div numerator denominator;
  mret (BigNumber.add q 1).

(** [getAmountOut] (source lines 251-256). *)
Definition getAmountOut (reserveIn reserveOut amountIn : Z) : result Z :=
  let amountInWithFee := BigNumber.mul amountIn 997 in
  let numerator := BigNumber.mul amountInWithFee reserveOut in
  let denominator := BigNumber.add (BigNumber.mul reserveIn 1000) amountInWithFee in
  BigNumber.div numerator denominator.

(** ** JavaScript values and plain objects *)

(** The values a property read on a token-balance object can produce: a
    [BigNumber], [undefined], or a member inherited from [Object.prototype]
    (a function, or the prototype itself for [__proto__]). *)
Inductive jsval : Type :=
  | JUndefined
  | JBigNumber (n : Z)
  | JInherited.

#[global] Instance jsval_eq_dec : EqDecision jsval.
Proof. solve_decision. Defined.

Module Js.

(** The string-keyed properties every plain object inherits from
    [Object.prototype] (ECMAScript, annex B included). *)
Definition Object_prototype_names : list string :=
  [ "constructor"; "hasOwnProperty"; "isPrototypeOf"; "propertyIsEnumerable";
    "toLocaleString"; "toString"; "valueOf"; "__proto__";
    "__defineGetter__"; "__defineSetter__"; "__lookupGetter__";
    "__lookupSetter__" ].

Definition inherited (key : string) : bool :=
  bool_decide (key ∈ Object_prototype_names).

(** [key in obj]: own properties first, then the prototype chain. *)
Definition has_property (obj : gmap string jsval) (key : string) : bool :=
  bool_decide (is_Some (obj !! key)) || inherited key.

(** [obj[key]]. *)
Definition get (obj : gmap string jsval) (key : string) : jsval :=
  match obj !! key with
  | Some v => v
  | None => if inherited key then JInherited else JUndefined
  end.

(** The property key an array element is converted to when it is used as
    an index: a missing element is [undefined], read as ["undefined"]. *)
Definition to_property_key (element : option string) : string :=
  default "undefined" element.

(** A method call [v.m(..)] on a value expected to be a [BigNumber]. *)
Definition as_BigNumber (v : jsval) : result Z :=
  match v with
  | JBigNumber n => Ok n
  | JUndefined | JInherited => Throw NotABigNumber
  end.

End Js.

Module Lodash.

(** [_.zipObject(props, values)]: every name of [props] becomes an own
    property, in order; a name without a matching value gets [undefined],
    and a repeated name keeps the last value. *)
Fixpoint baseZipObject (props : list string) (values : list jsval)
    (result : gmap string jsval) : gmap string jsval :=
  match props with
  | [] => result
  | key :: props' =>
      baseZipObject props' (tail values)
        (<[key := default JUndefined (head values)]> result)
  end.

Definition zipObject (props : list string) (values : list jsval)
    : gmap string jsval :=
  baseZipObject props values ∅.

(** [_.isEqual] on two such objects: same own keys with equal values. *)
Definition isEqual (a b : gmap string jsval) : bool := bool_decide (a = b).

(** [_.groupBy(collection, iteratee)]: an object whose keys appear in the
    order of their first element, each holding its elements in order.  (An
    object enumerates array-index keys first; asset identifiers are
    [0x]-prefixed addresses, never array indices.) *)
Fixpoint push_group {A} (key : string) (value : A)
    (groups : list (string * list A)) : list (string * list A) :=
  match groups with
  | [] => [(key, [value])]
  | (k, vs) :: groups' =>
      if bool_decide (k = key) then (k, vs ++ [value]) :: groups'
      else (k, vs) :: push_group key value groups'
  end.

Definition groupBy {A} (iteratee : A → string) (collection : list A)
    : list (string * list A) :=
  fold_left (fun groups value => push_group (iteratee value) value groups)
    collection [].

(** [_.pickBy(object, predicate)], [_.values], [_.flatten], [_.filter]. *)
Definition pickBy {A} (predicate : list A → Prop)
    `{∀ a, Decision (predicate a)}
    (object : list (string * list A)) : list (string * list A) :=
  filter (fun kv => predicate kv.2) object.

Definition values {A} (object : list (string * list A)) : list (list A) :=
  map snd object.

Definition flatten {A} (arrays : list (list A)) : list A := concat arrays.

(** Property read [object[key]] on a grouping. *)
Fixpoint lookup_group {A} (key : string) (object : list (string * list A))
    : option (list A) :=
  match object with
  | [] => None
  | (k, vs) :: object' =>
      if bool_decide (k = key) then Some vs else lookup_group key object'
  end.

End Lodash.

(** ** The market object *)

(** Modelled from the spec: the base class [EthMarket], whose file is not
    among the sources, keeps the three constructor arguments, immutable
    afterwards, and exposes them as [marketAddress], [tokens] and [protocol];
    [UniswappyV2EthPair] adds the private [_tokenBalances]. *)
Record UniswappyV2EthPair : Type := mkPair {
  _marketAddress : string;
  _tokens : list string;
  _protocol : string;
  _tokenBalances : gmap string jsval
}.

#[global] Instance UniswappyV2EthPair_eq_dec : EqDecision UniswappyV2EthPair.
Proof. solve_decision. Defined.

(** A method runs on the receiver [this]; it returns or throws, and leaves a
    receiver behind in both cases. *)
Definition Method (A : Type) : Type :=
  UniswappyV2EthPair → result A * UniswappyV2EthPair.

#[global] Instance Method_ret : MRet Method := fun _ a this => (Ok a, this).
#[global] Instance Method_bind : MBind Method := fun _ _ f m this =>
  match m this with
  | (Ok a, this') => f a this'
  | (Throw e, this') => (Throw e, this')
  end.

Definition throw {A} (e : error) : Method A := fun this => (Throw e, this).
Definition read {A} (field : UniswappyV2EthPair → A) : Method A :=
  fun this => (Ok (field this), this).
Definition assign_tokenBalances (b : gmap string jsval) : Method () :=
  fun this =>
    (Ok (), mkPair (_marketAddress this) (_tokens this) (_protocol this) b).
Definition lift {A} (r : result A) : Method A := fun this => (r, this).

(** [constructor] (source lines 50-53). *)
Definition new_UniswappyV2EthPair (marketAddress : string)
    (tokens : list string) (protocol : string) : UniswappyV2EthPair :=
  mkPair marketAddress tokens protocol
    (Lodash.zipObject tokens
       [JBigNumber (BigNumber.from 0); JBigNumber (BigNumber.from 0)]).

(** The getters of the base class. *)
Definition marketAddress : Method string := read _marketAddress.
Definition tokens : Method (list string) := read _tokens.

(** [receiveDirectly] (source lines 60-62). *)
Definition receiveDirectly (tokenAddress : string) : Method bool :=
  balances ← read _tokenBalances;
  mret (Js.has_property balances tokenAddress).

(** [prepareReceive] (source lines 70-79). *)
Definition prepareReceive (tokenAddress : string) (amountIn : Z)
    : Method (list string) :=
  balances ← read _tokenBalances;
  if bool_decide (Js.get balances tokenAddress = JUndefined)
  then throw MarketDoesNotOperateOnToken
  else if negb (BigNumber.gt amountIn 0) then throw InvalidAmount
  else mret [].

(** [getBalance] (source lines 178-182). *)
Definition getBalance (tokenAddress : string) : Method jsval :=
  balances ← read _tokenBalances;
  let balance := Js.get balances tokenAddress in
  if bool_decide (balance = JUndefined) then throw BadToken
  else mret balance.

(** [setReservesViaMatchingArray] (source lines 197-202). *)
Definition setReservesViaMatchingArray (tokens : list string)
    (balances : list Z) : Method () :=
  let tokenBalances := Lodash.zipObject tokens (JBigNumber <$> balances) in
  current ← read _tokenBalances;
  if negb (Lodash.isEqual current tokenBalances)
  then assign_tokenBalances tokenBalances
  else mret ().

(** [setReservesViaOrderedBalances] (source lines 188-190). *)
Definition setReservesViaOrderedBalances (balances : list Z) : Method () :=
  tokens ← read _tokens;
  setReservesViaMatchingArray tokens balances.

(** [getTokensIn] (source lines 212-216).  The two reads may yield values
    that are not [BigNumber]s; [getAmountIn] then throws on its first use of
    them, before any division. *)
Definition getTokensIn (tokenIn tokenOut : string) (amountOut : Z)
    : Method Z :=
  balances ← read _tokenBalances;
  let reserveIn := Js.get balances tokenIn in
  let reserveOut := Js.get balances tokenOut in
  lift (reserveIn ← Js.as_BigNumber reserveIn;
        reserveOut ← Js.as_BigNumber reserveOut;
        getAmountIn reserveIn reserveOut amountOut).

(** [getTokensOut] (source lines 225-229), likewise. *)
Definition getTokensOut (tokenIn tokenOut : string) (amountIn : Z)
    : Method Z :=
  balances ← read _tokenBalances;
  let reserveIn := Js.get balances tokenIn in
  let reserveOut := Js.get balances tokenOut in
  lift (reserveIn ← Js.as_BigNumber reserveIn;
        reserveOut ← Js.as_BigNumber reserveOut;
        getAmountOut reserveIn reserveOut amountIn).

(** The arguments [sellTokens] hands to the encoder of the pool's
    [swap(uint amount0Out, uint amount1Out, address to, bytes data)]. *)
Record SwapArguments : Type := mkSwap {
  amount0Out : Z;
  amount1Out : Z;
  to : string;
  data : list string
}.

(** [ethers]' [populateTransaction.swap] is outside the sources: it is taken
    as given.  It yields the transaction's [data] (possibly [undefined]) or
    throws. *)
Class Encoder : Type :=
  populateTransaction_swap : SwapArguments → result (option string).

(** [sellTokens], up to the call of the encoder (source lines 293-304). *)
Definition swapArguments (tokenIn : string) (amountIn : Z) (recipient : string)
    : Method SwapArguments :=
  let amount0Out := BigNumber.from 0 in
  let amount1Out := BigNumber.from 0 in
  tokens ← tokens;
  if bool_decide (Some tokenIn = tokens !! 0%nat) then
    let tokenOut := Js.to_property_key (tokens !! 1%nat) in
    amount1Out ← getTokensOut tokenIn tokenOut amountIn;
    mret (mkSwap amount0Out amount1Out recipient [])
  else if bool_decide (Some tokenIn = tokens !! 1%nat) then
    let tokenOut := Js.to_property_key (tokens !! 0%nat) in
    amount0Out ← getTokensOut tokenIn tokenOut amountIn;
    mret (mkSwap amount0Out amount1Out recipient [])
  else throw BadTokenInputAddress.

(** [sellTokens] (source lines 291-308). *)
Definition sellTokens `{Encoder} (tokenIn : string) (amountIn : Z)
    (recipient : string) : Method string :=
  arguments ← swapArguments tokenIn amountIn recipient;
  populatedTransaction ← lift (populateTransaction_swap arguments);
  match populatedTransaction with
  | None => throw HI
  | Some data => mret data
  end.

(** The markets a market of the assets [A] and [B] can become: as
    constructed, and after any number of calls of
    [setReservesViaOrderedBalances] with admissible arrays. *)
Inductive reachable (admissible : list Z → Prop)
    (marketAddress A B protocol : string) : UniswappyV2EthPair → Prop :=
  | reachable_new :
      reachable admissible marketAddress A B protocol
        (new_UniswappyV2EthPair marketAddress [A; B] protocol)
  | reachable_set (this : UniswappyV2EthPair) (balances : list Z) :
      reachable admissible marketAddress A B protocol this →
      admissible balances →
      reachable admissible marketAddress A B protocol
        (setReservesViaOrderedBalances balances this).2.

(** ** Discovery, reserve synchronisation and grouping *)

(** [addresses.ts] is not among the sources: the address of the quote asset
    is a parameter of the development. *)
Class Addresses : Type := { WETH_ADDRESS : string }.

(** Modelled from the spec: the two batched reads of the lookup contract,
    whose ABI is not among the sources.  The registry answers an
    index range with (assetA, assetB, poolAddress) records, read by the code
    as [pair[0]], [pair[1]] and [pair[2]]; the reserve query answers a list of
    pool addresses with a list of (reserveA, reserveB) records, read as
    [reserve[0]] and [reserve[1]]. *)
Record JsonRpcProvider : Type := {
  getPairsByIndexRange : string → nat → nat → list (string * string * string);
  getReservesByPairs : list string → list (Z * Z)
}.

Definition BATCH_COUNT_LIMIT : nat := 100.
Definition UNISWAP_BATCH_SIZE : nat := 1000.

Definition blacklistTokens : list string :=
  [ "0xD75EA151a61d06868E31F8988D28DFE5E9df57B4" ].

Definition includes (array : list string) (element : string) : bool :=
  bool_decide (element ∈ array).

(** What discovery did: the index ranges it requested from the registry, in
    order, and the markets it built. *)
Record Discovery : Type := mkDiscovery {
  requested : list (nat * nat);
  marketPairs : list UniswappyV2EthPair
}.

(** [interface GroupedMarkets] (source lines 19-22); an object of groups
    lists its keys in order. *)
Record GroupedMarkets : Type := mkGrouped {
  marketsByToken : list (string * list UniswappyV2EthPair);
  allMarketPairs : list UniswappyV2EthPair
}.

Section Markets.
Context `{Addresses}.

(** The inner loop of [getUniswappyMarkets] (source lines 94-110). *)
Fixpoint collectPairs (pairs : list (string * string * string))
    (marketPairs : list UniswappyV2EthPair) : list UniswappyV2EthPair :=
  match pairs with
  | [] => marketPairs
  | head :: pairs' =>
      let pair := head in
      let marketAddress := pair.2 in
      let tokenAddress :=
        if bool_decide (pair.1.1 = WETH_ADDRESS) then Some pair.1.2
        else if bool_decide (pair.1.2 = WETH_ADDRESS) then Some pair.1.1
        else None in
      match tokenAddress with
      | None => collectPairs pairs' marketPairs (* continue *)
      | Some tokenAddress =>
          if negb (includes blacklistTokens tokenAddress) then
            let uniswappyV2EthPair :=
              new_UniswappyV2EthPair marketAddress [pair.1.1; pair.1.2] "" in
            collectPairs pairs' (marketPairs ++ [uniswappyV2EthPair])
          else collectPairs pairs' marketPairs
      end
  end.

(** The outer loop of [getUniswappyMarkets] (source lines 92-114), for a
    batch count limit and a batch size.  [requested] logs the calls made to
    the registry; [fuel] bounds the iterations, and [None] means it ran
    out. *)
Fixpoint paginate (limit size : nat) (provider : JsonRpcProvider)
    (factoryAddress : string) (fuel : nat) (i : nat)
    (requested : list (nat * nat)) (marketPairs : list UniswappyV2EthPair)
    : option Discovery :=
  if bool_decide (i < limit * size) then
    match fuel with
    | O => None
    | S fuel' =>
        let pairs :=
          getPairsByIndexRange provider factoryAddress i (i + size) in
        let requested := requested ++ [(i, i + size)] in
        let marketPairs := collectPairs pairs marketPairs in
        if bool_decide (length pairs < size)
        then Some (mkDiscovery requested marketPairs)
        else paginate limit size provider factoryAddress fuel' (i + size)
               requested marketPairs
    end
  else Some (mkDiscovery requested marketPairs).

Definition discover (limit size : nat) (provider : JsonRpcProvider)
    (factoryAddress : string) : option Discovery :=
  paginate limit size provider factoryAddress limit 0 [] [].

(** The [k]-th index range of a pagination, the registry's answer to it,
    and the markets it adds. *)
Definition batchRange (size k : nat) : nat * nat :=
  (k * size, k * size + size).

Definition batch (size : nat) (provider : JsonRpcProvider)
    (factoryAddress : string) (k : nat) : list (string * string * string) :=
  getPairsByIndexRange provider factoryAddress (k * size) (k * size + size).

Definition collectBatch (size : nat) (provider : JsonRpcProvider)
    (factoryAddress : string) (marketPairs : list UniswappyV2EthPair)
    (k : nat) : list UniswappyV2EthPair :=
  collectPairs (batch size provider factoryAddress k) marketPairs.

(** [getUniswappyMarkets] (source lines 88-117). *)
Definition getUniswappyMarkets (provider : JsonRpcProvider)
    (factoryAddress : string) : option (list UniswappyV2EthPair) :=
  marketPairs <$>
    discover BATCH_COUNT_LIMIT UNISWAP_BATCH_SIZE provider factoryAddress.

(** The body of the loop of [updateReserves] (source lines 167-169), as the
    market it leaves behind. *)
Definition synchronised (marketPair : UniswappyV2EthPair) (reserve : Z * Z)
    : UniswappyV2EthPair :=
  (setReservesViaOrderedBalances [reserve.1; reserve.2] marketPair).2.

(** The loop of [updateReserves] (source lines 166-170) from index [i] on;
    [rest] is [allMarketPairs] from that index. *)
Fixpoint updateReserves_from (reserves : list (Z * Z)) (i : nat)
    (rest : list UniswappyV2EthPair)
    : result () * list UniswappyV2EthPair :=
  match rest with
  | [] => (Ok (), [])
  | marketPair :: rest' =>
      match reserves !! i with
      | None => (Throw UndefinedReserve, marketPair :: rest')
      | Some reserve =>
          let marketPair := synchronised marketPair reserve in
          let '(outcome, rest') := updateReserves_from reserves (S i) rest' in
          (outcome, marketPair :: rest')
      end
  end.

(** [updateReserves] (source lines 161-171). *)
Definition updateReserves (provider : JsonRpcProvider)
    (allMarketPairs : list UniswappyV2EthPair)
    : result () * list UniswappyV2EthPair :=
  let pairAddresses := map _marketAddress allMarketPairs in
  let reserves := getReservesByPairs provider pairAddresses in
  updateReserves_from reserves 0 allMarketPairs.

(** The iteratee of both [groupBy]s (source lines 132 and 146). *)
Definition nonQuoteToken (pair : UniswappyV2EthPair) : string :=
  if bool_decide (_tokens pair !! 0%nat = Some WETH_ADDRESS)
  then Js.to_property_key (_tokens pair !! 1%nat)
  else Js.to_property_key (_tokens pair !! 0%nat).

(** The predicate of the [filter] (source line 145). *)
Definition aboveMinimumLiquidity (pair : UniswappyV2EthPair) : result bool :=
  balance ← (getBalance WETH_ADDRESS pair).1;
  balance ← Js.as_BigNumber balance;
  mret (BigNumber.gt balance ETHER).

Fixpoint filter_pairs (predicate : UniswappyV2EthPair → result bool)
    (pairs : list UniswappyV2EthPair) : result (list UniswappyV2EthPair) :=
  match pairs with
  | [] => mret []
  | head :: pairs' =>
      let pair := head in
      keep ← predicate pair;
      kept ← filter_pairs predicate pairs';
      mret (if keep : bool then pair :: kept else kept)
  end.

(** The first pass (source lines 130-140). *)
Definition groupCandidates (allPairs : list (list UniswappyV2EthPair))
    : list UniswappyV2EthPair :=
  let marketsByTokenAll :=
    Lodash.groupBy nonQuoteToken (Lodash.flatten allPairs) in
  Lodash.flatten
    (Lodash.values
       (Lodash.pickBy (fun a => 1 < length a) marketsByTokenAll)).

(** The second pass (source lines 144-147). *)
Definition groupLiquid (allMarketPairs : list UniswappyV2EthPair)
    : result (list (string * list UniswappyV2EthPair)) :=
  liquid ← filter_pairs aboveMinimumLiquidity allMarketPairs;
  mret (Lodash.groupBy nonQuoteToken liquid).

(** Vocabulary for the statements about the second pass: the reserve a
    market holds of the quote asset, when it is a [BigNumber], and whether
    it exceeds the threshold [ETHER]. *)
Definition quoteReserve (pair : UniswappyV2EthPair) : option Z :=
  match Js.get (_tokenBalances pair) WETH_ADDRESS with
  | JBigNumber n => Some n
  | JUndefined | JInherited => None
  end.

Definition liquid (pair : UniswappyV2EthPair) : Prop :=
  ∃ n, quoteReserve pair = Some n ∧ (ETHER < n)%Z.

#[global] Instance liquid_dec (pair : UniswappyV2EthPair)
  : Decision (liquid pair).
Proof.
  unfold liquid. destruct (quoteReserve pair) as [n|].
  - destruct (decide (ETHER < n)%Z) as [Hlt|Hge].
    + left. by exists n.
    + right. intros (n' & [= <-] & Hlt). done.
  - right. intros (n' & [=] & _).
Defined.

(** [getUniswapMarketsByToken] (source lines 125-153). *)
Definition getUniswapMarketsByToken (provider : JsonRpcProvider)
    (factoryAddresses : list string) : option (result GroupedMarkets) :=
  allPairs ← mapM (getUniswappyMarkets provider) factoryAddresses;
  let allMarketPairs := groupCandidates allPairs in
  let '(outcome, allMarketPairs) := updateReserves provider allMarketPairs in
  Some (_ ← outcome;
        marketsByToken ← groupLiquid allMarketPairs;
        mret (mkGrouped marketsByToken allMarketPairs)).

End Markets.

(** ** Sample markets *)

Module Sample.

(** A pool of the assets ["0xA"] and ["0xB"], as constructed and with the
    reserves of some synchronisations. *)
Definition fresh : UniswappyV2EthPair :=
  new_UniswappyV2EthPair "0xPool" ["0xA"; "0xB"] "".

Definition with_reserves (reserveA reserveB : Z) : UniswappyV2EthPair :=
  (setReservesViaOrderedBalances [reserveA; reserveB] fresh).2.

Definition addresses : Addresses := {| WETH_ADDRESS := "0xWETH" |}.

(** An encoder that answers every call with the selector of [swap]. *)
Definition encoder : Encoder := fun _ => Ok (Some "0x022c0d9f").

Definition poolA : UniswappyV2EthPair :=
  new_UniswappyV2EthPair "0xPoolA" ["0xWETH"; "0xA"] "".
Definition poolB : UniswappyV2EthPair :=
  new_UniswappyV2EthPair "0xPoolB" ["0xB"; "0xWETH"] "".

(** A node whose reserve query answers with a fixed list, whatever was
    asked, and whose registry holds the given records on its first page. *)
Definition node (registry : list (string * string * string))
    (reserves : list (Z * Z)) : JsonRpcProvider :=
  {| getPairsByIndexRange := fun _ from _ =>
       match from with O => registry | S _ => [] end;
     getReservesByPairs := fun _ => reserves |}.

(** One pool of X and three pools of Y against the quote asset. *)
Definition registryXY : list (string * string * string) :=
  [ ("0xWETH", "0xX", "0xPoolX1");
    ("0xWETH", "0xY", "0xPoolY1");
    ("0xY", "0xWETH", "0xPoolY2");
    ("0xWETH", "0xY", "0xPoolY3") ].

Definition poolX1 : UniswappyV2EthPair :=
  new_UniswappyV2EthPair "0xPoolX1" ["0xWETH"; "0xX"] "".
Definition poolY1 : UniswappyV2EthPair :=
  new_UniswappyV2EthPair "0xPoolY1" ["0xWETH"; "0xY"] "".
Definition poolY2 : UniswappyV2EthPair :=
  new_UniswappyV2EthPair "0xPoolY2" ["0xY"; "0xWETH"] "".
Definition poolY3 : UniswappyV2EthPair :=
  new_UniswappyV2EthPair "0xPoolY3" ["0xWETH"; "0xY"] "".

(** Reserves that leave every pool of Y at or below one [ETHER] of the
    quote asset, and reserves that leave two of them above. *)
Definition lowReserves : list (Z * Z) :=
  [ (ETHER, 5); (7, ETHER - 1); (5, 9 * ETHER) ]%Z.
Definition mixedReserves : list (Z * Z) :=
  [ (ETHER + 1, 5); (7, ETHER); (2 * ETHER, 9) ]%Z.

End Sample.

(** ** Selling to the next market *)

(** [interface MultipleCallData] of [EthMarket.ts], as [sellTokensToNextMarket]
    builds it. *)
Record MultipleCallData : Type := mkCalls {
  calls_data : list string;
  calls_targets : list string
}.

(** [sellTokensToNextMarket] (source lines 265-282).  [ethMarket] is another
    market object; [UniswappyV2EthPair] is the implementation of [EthMarket]
    the sources have. *)
Definition sellTokensToNextMarket `{Encoder} (tokenIn : string) (amountIn : Z)
    (ethMarket : UniswappyV2EthPair) : Method MultipleCallData :=
  match (receiveDirectly tokenIn ethMarket).1 with
  | Ok true =>
      exchangeCall ← sellTokens tokenIn amountIn (_marketAddress ethMarket);
      target ← marketAddress;
      mret (mkCalls [exchangeCall] [target])
  | _ =>
      exchangeCall ← sellTokens tokenIn amountIn (_marketAddress ethMarket);
      target ← marketAddress;
      mret (mkCalls [exchangeCall] [target])
  end.

(** ** Vocabulary for the statements about discovery *)

Section Records.
Context `{Addresses}.

(** The asset a registry record pairs with the quote asset, as the inner
    loop of [getUniswappyMarkets] determines it (source lines 99-105). *)
Definition tokenAddressOf (pair : string * string * string) : option string :=
  if bool_decide (pair.1.1 = WETH_ADDRESS) then Some pair.1.2
  else if bool_decide (pair.1.2 = WETH_ADDRESS) then Some pair.1.1
  else None.

(** The records the loop turns into markets, and the market it builds. *)
Definition listed (pair : string * string * string) : Prop :=
  ∃ tokenAddress,
    tokenAddressOf pair = Some tokenAddress
    ∧ tokenAddress ∉ blacklistTokens.

#[global] Instance listed_dec (pair : string * string * string)
  : Decision (listed pair).
Proof.
  unfold listed. destruct (tokenAddressOf pair) as [tokenAddress|].
  - destruct (decide (tokenAddress ∈ blacklistTokens)) as [Hin|Hout].
    + right. intros (t & [= <-] & Hout). done.
    + left. by exists tokenAddress.
  - right. intros (t & [=] & _).
Defined.

Definition marketOf (pair : string * string * string) : UniswappyV2EthPair :=
  new_UniswappyV2EthPair pair.2 [pair.1.1; pair.1.2] "".

End Records.

(** * Properties *)

(** ** Running methods *)

Lemma getTokensOut_run (this : UniswappyV2EthPair) (tokenIn tokenOut : string)
    (reserveIn reserveOut amountIn : Z) :
  Js.get (_tokenBalances this) tokenIn = JBigNumber reserveIn →
  Js.get (_tokenBalances this) tokenOut = JBigNumber reserveOut →
  getTokensOut tokenIn tokenOut amountIn this
  = (getAmountOut reserveIn reserveOut amountIn, this).
Proof.
  intros Hin Hout. unfold getTokensOut, mbind, Method_bind, read, lift.
  by rewrite Hin, Hout.
Qed.

Lemma getTokensIn_run (this : UniswappyV2EthPair) (tokenIn tokenOut : string)
    (reserveIn reserveOut amountOut : Z) :
  Js.get (_tokenBalances this) tokenIn = JBigNumber reserveIn →
  Js.get (_tokenBalances this) tokenOut = JBigNumber reserveOut →
  getTokensIn tokenIn tokenOut amountOut this
  = (getAmountIn reserveIn reserveOut amountOut, this).
Proof.
  intros Hin Hout. unfold getTokensIn, mbind, Method_bind, read, lift.
  by rewrite Hin, Hout.
Qed.

(** ** Swap arithmetic *)

Section Arithmetic.
Local Open Scope Z_scope.

Lemma div_nonzero (a b : Z) : b ≠ 0 → BigNumber.div a b = Ok (a `quot` b).
Proof. intros Hb. unfold BigNumber.div. by rewrite bool_decide_eq_false_2. Qed.

Lemma div_zero (a : Z) : BigNumber.div a 0 = Throw DivisionByZero.
Proof. reflexivity. Qed.

Lemma getAmountOut_unfold (reserveIn reserveOut amountIn : Z) :
  getAmountOut reserveIn reserveOut amountIn
  = BigNumber.div (amountIn * 997 * reserveOut)
      (reserveIn * 1000 + amountIn * 997).
Proof. reflexivity. Qed.

Lemma getAmountIn_unfold (reserveIn reserveOut amountOut : Z) :
  getAmountIn reserveIn reserveOut amountOut
  = (q ← BigNumber.div (reserveIn * amountOut * 1000)
           ((reserveOut - amountOut) * 997);
     Ok (q + 1)).
Proof. reflexivity. Qed.

(** On a non-negative numerator and a positive denominator, rounding
    toward zero is the floor. *)
Lemma quot_is_floor (n d : Z) :
  0 ≤ n → 0 < d →
  n `quot` d = n `div` d ∧ d * (n `div` d) ≤ n < d * (n `div` d + 1).
Proof.
  intros Hn Hd. split; [by apply Z.quot_div_nonneg|].
  pose proof (Z.mul_div_le n d Hd).
  pose proof (Z.mul_succ_div_gt n d Hd). lia.
Qed.

(** Comparing two floors by cross-multiplication. *)
Lemma div_le_cross (n1 d1 n2 d2 : Z) :
  0 < d1 → 0 < d2 → n1 * d2 ≤ n2 * d1 → n1 `div` d1 ≤ n2 `div` d2.
Proof.
  intros Hd1 Hd2 Hcross. apply Z.div_le_lower_bound; [done|].
  pose proof (Z.mul_div_le n1 d1 Hd1) as Hq.
  apply (Z.mul_le_mono_pos_l _ _ d1); [done|].
  transitivity (n1 * d2); [|lia].
  replace (d1 * (d2 * (n1 `div` d1))) with (d2 * (d1 * (n1 `div` d1))) by ring.
  rewrite (Z.mul_comm n1 d2). by apply Z.mul_le_mono_nonneg_l; [lia|].
Qed.

Lemma getAmountOut_floor (reserveIn reserveOut amountIn : Z) :
  0 ≤ reserveIn → 0 ≤ reserveOut → 0 ≤ amountIn →
  0 < reserveIn ∨ 0 < amountIn →
  getAmountOut reserveIn reserveOut amountIn
  = Ok ((amountIn * 997 * reserveOut) `div` (reserveIn * 1000 + amountIn * 997)).
Proof.
  intros Hin Hout Ha Hpos. rewrite getAmountOut_unfold, div_nonzero by lia.
  f_equal. apply Z.quot_div_nonneg; [apply Z.mul_nonneg_nonneg|]; lia.
Qed.

Lemma getAmountIn_floor (reserveIn reserveOut amountOut : Z) :
  0 ≤ reserveIn → 0 ≤ amountOut → amountOut < reserveOut →
  getAmountIn reserveIn reserveOut amountOut
  = Ok ((reserveIn * amountOut * 1000) `div` ((reserveOut - amountOut) * 997) + 1).
Proof.
  intros Hin Ha Hlt. rewrite getAmountIn_unfold, div_nonzero by lia.
  simpl. do 2 f_equal.
  apply Z.quot_div_nonneg; [repeat apply Z.mul_nonneg_nonneg|]; lia.
Qed.

End Arithmetic.

Section Quotes.
Local Open Scope Z_scope.

(** C1, as stated, fails where both the input reserve and the input
    amount are zero: the denominator is zero and the division throws, so
    no quotient is returned. *)
Lemma getAmountOut_zero_denominator_throws :
  getAmountOut 0 1000000 0 = Throw DivisionByZero
  ∧ getAmountOut 0 1000000 0
    ≠ Ok ((0 * 997 * 1000000) `div` (0 * 1000 + 0 * 997)).
Proof. split; [reflexivity | discriminate]. Qed.

(** C1 (amended).  For non-negative reserves and input amount that are not
    both zero on the input side, [getAmountOut] returns the floor of
    [amountIn * 997 * reserveOut / (reserveIn * 1000 + amountIn * 997)],
    which is also the quotient rounded toward zero, and [getTokensOut]
    returns it for a market holding these reserves; when [reserveIn] and
    [amountIn] are both zero the division throws.  With reserves
    1_000_000 and 1_000_000 and input 1_000 the result is 996. *)
Theorem getAmountOut_formula (reserveIn reserveOut amountIn : Z) :
  0 ≤ reserveIn → 0 ≤ reserveOut → 0 ≤ amountIn →
  let n := amountIn * 997 * reserveOut in
  let d := reserveIn * 1000 + amountIn * 997 in
  (0 < reserveIn ∨ 0 < amountIn →
     getAmountOut reserveIn reserveOut amountIn = Ok (n `div` d)
     ∧ n `quot` d = n `div` d
     ∧ d * (n `div` d) ≤ n < d * (n `div` d + 1)
     ∧ ∀ (this : UniswappyV2EthPair) (tokenIn tokenOut : string),
         Js.get (_tokenBalances this) tokenIn = JBigNumber reserveIn →
         Js.get (_tokenBalances this) tokenOut = JBigNumber reserveOut →
         getTokensOut tokenIn tokenOut amountIn this = (Ok (n `div` d), this))
  ∧ (reserveIn = 0 ∧ amountIn = 0 →
     getAmountOut reserveIn reserveOut amountIn = Throw DivisionByZero)
  ∧ getAmountOut 1000000 1000000 1000 = Ok 996.
Proof.
  intros Hin Hout Ha n d. split; [|split; [|reflexivity]].
  - intros Hpos.
    assert (Hn : 0 ≤ n) by (unfold n; apply Z.mul_nonneg_nonneg; lia).
    assert (Hd : 0 < d) by (unfold d; lia).
    destruct (quot_is_floor n d Hn Hd) as [Hq Hfloor].
    pose proof (getAmountOut_floor reserveIn reserveOut amountIn
                  Hin Hout Ha Hpos) as Hget.
    repeat split; try done; try lia.
    intros this tokenIn tokenOut HgetIn HgetOut.
    by rewrite (getTokensOut_run this _ _ _ _ _ HgetIn HgetOut), Hget.
  - intros [-> ->]. reflexivity.
Qed.

Lemma getAmountOut_formula_witness :
  getAmountOut 1000000 1000000 1000
  = Ok ((1000 * 997 * 1000000) `div` (1000000 * 1000 + 1000 * 997))
  ∧ getTokensOut "0xA" "0xB" 1000 (Sample.with_reserves 1000000 1000000)
    = (Ok 996, Sample.with_reserves 1000000 1000000).
Proof.
  destruct (getAmountOut_formula 1000000 1000000 1000
              ltac:(lia) ltac:(lia) ltac:(lia)) as [Hquote _].
  destruct (Hquote ltac:(lia)) as (Hget & _ & _ & Hmarket).
  split; [exact Hget|].
  apply (Hmarket (Sample.with_reserves 1000000 1000000) "0xA" "0xB");
    reflexivity.
Defined.

(** C2.  For non-negative reserves and a non-negative desired output
    below the output reserve, [getAmountIn] returns the floor of
    [reserveIn * amountOut * 1000 / ((reserveOut - amountOut) * 997)]
    plus one, the floor being the quotient rounded toward zero;
    [getTokensIn] returns the same for a market holding these reserves. *)
Theorem getAmountIn_formula (reserveIn reserveOut amountOut : Z) :
  0 ≤ reserveIn → 0 ≤ amountOut → amountOut < reserveOut →
  let n := reserveIn * amountOut * 1000 in
  let d := (reserveOut - amountOut) * 997 in
  getAmountIn reserveIn reserveOut amountOut = Ok (n `div` d + 1)
  ∧ n `quot` d = n `div` d
  ∧ d * (n `div` d) ≤ n < d * (n `div` d + 1)
  ∧ ∀ (this : UniswappyV2EthPair) (tokenIn tokenOut : string),
      Js.get (_tokenBalances this) tokenIn = JBigNumber reserveIn →
      Js.get (_tokenBalances this) tokenOut = JBigNumber reserveOut →
      getTokensIn tokenIn tokenOut amountOut this = (Ok (n `div` d + 1), this).
Proof.
  intros Hin Ha Hlt n d.
  assert (Hn : 0 ≤ n) by (unfold n; repeat apply Z.mul_nonneg_nonneg; lia).
  assert (Hd : 0 < d) by (unfold d; lia).
  destruct (quot_is_floor n d Hn Hd) as [Hq Hfloor].
  pose proof (getAmountIn_floor reserveIn reserveOut amountOut Hin Ha Hlt)
    as Hget.
  repeat split; try done; try lia.
  intros this tokenIn tokenOut HgetIn HgetOut.
  by rewrite (getTokensIn_run this _ _ _ _ _ HgetIn HgetOut), Hget.
Qed.

Lemma getAmountIn_formula_witness :
  getAmountIn 1000000 1000000 996 = Ok 1000
  ∧ getTokensIn "0xA" "0xB" 996 (Sample.with_reserves 1000000 1000000)
    = (Ok 1000, Sample.with_reserves 1000000 1000000).
Proof.
  destruct (getAmountIn_formula 1000000 1000000 996
              ltac:(lia) ltac:(lia) ltac:(lia)) as (Hget & _ & _ & Hmarket).
  split; [exact Hget|].
  apply (Hmarket (Sample.with_reserves 1000000 1000000) "0xA" "0xB");
    reflexivity.
Defined.

End Quotes.

Section RoundTrip.
Local Open Scope Z_scope.

(** The forward quote of a positive input against positive reserves is
    non-negative, below the output reserve, and times the denominator does
    not exceed the numerator. *)
Lemma getAmountOut_bounds (reserveIn reserveOut amountIn : Z) :
  0 < reserveIn → 0 < reserveOut → 0 < amountIn →
  ∃ out, getAmountOut reserveIn reserveOut amountIn = Ok out
         ∧ 0 ≤ out < reserveOut
         ∧ out * (reserveIn * 1000 + amountIn * 997)
           ≤ amountIn * 997 * reserveOut.
Proof.
  intros Hin Hout Ha.
  set (n := amountIn * 997 * reserveOut).
  set (d := reserveIn * 1000 + amountIn * 997).
  assert (Hn : 0 ≤ n) by (unfold n; apply Z.mul_nonneg_nonneg; lia).
  assert (Hd : 0 < d) by (unfold d; lia).
  exists (n `div` d). split.
  { apply getAmountOut_floor; lia. }
  pose proof (Z.mul_div_le n d Hd) as Hle.
  pose proof (Z.div_pos n d Hn Hd) as Hnonneg.
  assert (Hlt : n `div` d < reserveOut).
  { apply Z.div_lt_upper_bound; [done|]. unfold n, d. nia. }
  repeat split; try lia.
Qed.

(** C3, as stated, fails: quoting the output back through the reversed
    direction, as the claim writes the composition, prices it against the
    swapped reserves.  With reserves 1000 of A and 2000 of B, 100 of A
    quotes to 181 of B, and the claim's composition answers 444 > 100.
    Quoted back in the same direction the answer may still exceed the
    input by one, when the forward division is exact: with reserves 997 and
    2000, 1000 quotes to 1000 and back to 1001. *)
Lemma round_trip_exceeds_input :
  (getBalance "0xA" (Sample.with_reserves 1000 2000)).1 = Ok (JBigNumber 1000)
  ∧ (getBalance "0xB" (Sample.with_reserves 1000 2000)).1 = Ok (JBigNumber 2000)
  ∧ (out ← getTokensOut "0xA" "0xB" 100; getTokensIn "0xB" "0xA" out)
      (Sample.with_reserves 1000 2000)
    = (Ok 444, Sample.with_reserves 1000 2000)
  ∧ ¬ (444 ≤ 100)
  ∧ (out ← getTokensOut "0xA" "0xB" 1000; getTokensIn "0xA" "0xB" out)
      (Sample.with_reserves 997 2000)
    = (Ok 1001, Sample.with_reserves 997 2000)
  ∧ ¬ (1001 ≤ 1000).
Proof. repeat split; try reflexivity; lia. Qed.

(** C3 (amended).  For a market holding positive reserves of both assets
    and a positive input, quoting forward and then quoting the output back
    in the same direction,
    [getTokensIn(assetIn, assetOut, getTokensOut(assetIn, assetOut, amountIn))],
    returns a value between 1 and [amountIn + 1], and leaves the market as
    it was. *)
Theorem round_trip_within_one (this : UniswappyV2EthPair)
    (assetIn assetOut : string) (reserveIn reserveOut amountIn : Z) :
  Js.get (_tokenBalances this) assetIn = JBigNumber reserveIn →
  Js.get (_tokenBalances this) assetOut = JBigNumber reserveOut →
  0 < reserveIn → 0 < reserveOut → 0 < amountIn →
  ∃ back,
    (out ← getTokensOut assetIn assetOut amountIn;
     getTokensIn assetIn assetOut out) this = (Ok back, this)
    ∧ 1 ≤ back ≤ amountIn + 1.
Proof.
  intros HgetIn HgetOut Hin Hout Ha.
  destruct (getAmountOut_bounds reserveIn reserveOut amountIn Hin Hout Ha)
    as (out & Hquote & [Hnonneg Hlt] & Hmul).
  set (n := reserveIn * out * 1000).
  set (d := (reserveOut - out) * 997).
  exists (n `div` d + 1). split.
  - unfold mbind at 1, Method_bind.
    rewrite (getTokensOut_run this _ _ _ _ _ HgetIn HgetOut), Hquote.
    rewrite (getTokensIn_run this _ _ _ _ _ HgetIn HgetOut).
    by rewrite getAmountIn_floor by lia.
  - assert (Hn : 0 ≤ n) by (unfold n; repeat apply Z.mul_nonneg_nonneg; lia).
    assert (Hd : 0 < d) by (unfold d; lia).
    pose proof (Z.div_pos n d Hn Hd).
    assert (n `div` d ≤ amountIn); [|lia].
    apply Z.div_le_upper_bound; [done|]. unfold n, d. nia.
Qed.

Lemma round_trip_within_one_witness :
  ∃ back,
    (out ← getTokensOut "0xA" "0xB" 1000; getTokensIn "0xA" "0xB" out)
      (Sample.with_reserves 1000000 1000000)
    = (Ok back, Sample.with_reserves 1000000 1000000)
    ∧ 1 ≤ back ≤ 1000 + 1.
Proof.
  apply (round_trip_within_one (Sample.with_reserves 1000000 1000000)
           "0xA" "0xB" 1000000 1000000 1000);
    [reflexivity | reflexivity | lia | lia | lia].
Defined.

End RoundTrip.

Section Monotonicity.
Local Open Scope Z_scope.

(** C4, as stated, fails: the quotient is truncated, so distinct arguments
    can share a quote.  Against reserves 1000 (in) and 1 (out), inputs 1 and
    2 both quote to 0; so do output reserves 1 and 2, and input reserves
    1000 and 1001. *)
Lemma getAmountOut_not_strictly_monotone :
  getAmountOut 1000 1 1 = Ok 0
  ∧ getAmountOut 1000 1 2 = Ok 0
  ∧ getAmountOut 1000 2 1 = Ok 0
  ∧ getAmountOut 1001 1 1 = Ok 0
  ∧ ¬ (0 < 0).
Proof. repeat split; try reflexivity; lia. Qed.

(** C4 (amended).  Over positive reserves and positive input, with the
    other two arguments fixed, [getAmountOut] is non-decreasing in
    [amountIn], non-decreasing in [reserveOut] and non-increasing in
    [reserveIn]. *)
Theorem getAmountOut_monotone (reserveIn reserveOut amountIn : Z) :
  0 < reserveIn → 0 < reserveOut → 0 < amountIn →
  ∃ out, getAmountOut reserveIn reserveOut amountIn = Ok out
    ∧ (∀ amountIn', amountIn ≤ amountIn' →
         ∃ out', getAmountOut reserveIn reserveOut amountIn' = Ok out'
                 ∧ out ≤ out')
    ∧ (∀ reserveOut', reserveOut ≤ reserveOut' →
         ∃ out', getAmountOut reserveIn reserveOut' amountIn = Ok out'
                 ∧ out ≤ out')
    ∧ (∀ reserveIn', reserveIn ≤ reserveIn' →
         ∃ out', getAmountOut reserveIn' reserveOut amountIn = Ok out'
                 ∧ out' ≤ out).
Proof.
  intros Hin Hout Ha. eexists. split; [apply getAmountOut_floor; lia|].
  split; [|split].
  - intros amountIn' Hle. eexists. split; [apply getAmountOut_floor; lia|].
    apply div_le_cross; [lia | lia |]. nia.
  - intros reserveOut' Hle. eexists. split; [apply getAmountOut_floor; lia|].
    apply div_le_cross; [lia | lia |].
    apply Z.mul_le_mono_nonneg_r; [lia|].
    apply Z.mul_le_mono_nonneg_l; lia.
  - intros reserveIn' Hle. eexists. split; [apply getAmountOut_floor; lia|].
    apply div_le_cross; [lia | lia |].
    apply Z.mul_le_mono_nonneg_l; [|lia].
    apply Z.mul_nonneg_nonneg; lia.
Qed.

Lemma getAmountOut_monotone_witness :
  ∃ out, getAmountOut 1000000 1000000 1000 = Ok out
    ∧ (∃ out', getAmountOut 1000000 1000000 2000 = Ok out' ∧ out ≤ out')
    ∧ (∃ out', getAmountOut 1000000 3000000 1000 = Ok out' ∧ out ≤ out')
    ∧ (∃ out', getAmountOut 5000000 1000000 1000 = Ok out' ∧ out' ≤ out).
Proof.
  destruct (getAmountOut_monotone 1000000 1000000 1000
              ltac:(lia) ltac:(lia) ltac:(lia))
    as (out & Hout & Hamount & HreserveOut & HreserveIn).
  exists out. split; [exact Hout|]. split; [|split].
  - apply (Hamount 2000). lia.
  - apply (HreserveOut 3000000). lia.
  - apply (HreserveIn 5000000). lia.
Defined.

End Monotonicity.

Section Liquidity.
Local Open Scope Z_scope.

(** C5, as stated, fails: a requested output above the output reserve is
    not refused.  The denominator is then negative, not zero, and the
    division goes through: asking 2000 out of a reserve of 1000 returns
    -2005. *)
Lemma getAmountIn_above_reserve_returns :
  getAmountIn 1000 1000 2000 = Ok (-2005) ∧ 2000 ≥ 1000.
Proof. split; [reflexivity | lia]. Qed.

(** C5 (amended).  [getAmountIn] throws exactly when [amountOut] equals
    [reserveOut], and what it throws is the division-by-zero fault of
    [BigNumber.div]; for every other [amountOut] it returns a value, in
    particular whenever [amountOut < reserveOut].  When [amountOut] exceeds
    [reserveOut], with non-negative [reserveIn] and [amountOut], the value
    returned is at most 1. *)
Theorem getAmountIn_throws_iff (reserveIn reserveOut amountOut : Z) :
  (getAmountIn reserveIn reserveOut amountOut = Throw DivisionByZero
     ↔ amountOut = reserveOut)
  ∧ ((∃ amountIn, getAmountIn reserveIn reserveOut amountOut = Ok amountIn)
     ↔ amountOut ≠ reserveOut)
  ∧ (amountOut < reserveOut →
     ∃ amountIn, getAmountIn reserveIn reserveOut amountOut = Ok amountIn)
  ∧ (reserveOut < amountOut → 0 ≤ reserveIn → 0 ≤ amountOut →
     ∃ amountIn, getAmountIn reserveIn reserveOut amountOut = Ok amountIn
                 ∧ amountIn ≤ 1).
Proof.
  rewrite getAmountIn_unfold.
  destruct (decide (amountOut = reserveOut)) as [->|Hne].
  - replace ((reserveOut - reserveOut) * 997) with 0 by lia.
    rewrite div_zero. simpl.
    repeat split; try done; try lia.
    intros [? ?]; discriminate.
  - rewrite div_nonzero by lia. simpl.
    repeat split; try done; try (intros; eauto; fail).
    intros Hgt Hin Ha. eexists. split; [reflexivity|].
    replace ((reserveOut - amountOut) * 997)
      with (- ((amountOut - reserveOut) * 997)) by ring.
    rewrite Z.quot_opp_r by lia.
    assert (0 ≤ (reserveIn * amountOut * 1000)
                  `quot` ((amountOut - reserveOut) * 997)); [|lia].
    apply Z.quot_pos; [repeat apply Z.mul_nonneg_nonneg|]; lia.
Qed.

Lemma getAmountIn_throws_iff_witness :
  getAmountIn 1000 1000 1000 = Throw DivisionByZero
  ∧ (∃ amountIn, getAmountIn 1000 1000 999 = Ok amountIn)
  ∧ (∃ amountIn, getAmountIn 1000 1000 2000 = Ok amountIn ∧ amountIn ≤ 1).
Proof.
  split; [|split].
  - apply (getAmountIn_throws_iff 1000 1000 1000). reflexivity.
  - apply (getAmountIn_throws_iff 1000 1000 999). lia.
  - apply (getAmountIn_throws_iff 1000 1000 2000); lia.
Defined.

End Liquidity.

(** ** Reserve synchronisation *)

Section Synchronisation.

Lemma updateReserves_from_spec (reserves : list (Z * Z))
    (rest : list UniswappyV2EthPair) (i : nat) :
  i ≤ length reserves →
  updateReserves_from reserves i rest
  = (if decide (i + length rest ≤ length reserves)
     then Ok () else Throw UndefinedReserve,
     zip_with synchronised rest (drop i reserves)
       ++ drop (length reserves - i) rest).
Proof.
  revert i. induction rest as [|marketPair rest IH]; intros i Hi; simpl.
  - rewrite decide_True by lia. by rewrite drop_nil.
  - destruct (reserves !! i) as [reserve|] eqn:Hlookup.
    + pose proof (lookup_lt_Some _ _ _ Hlookup) as Hlt.
      rewrite (drop_S _ _ _ Hlookup). simpl.
      rewrite IH by lia.
      replace (length reserves - i) with (S (length reserves - S i)) by lia.
      simpl. f_equal.
      by repeat case_decide; try lia.
    + apply lookup_ge_None in Hlookup.
      rewrite decide_False by lia.
      rewrite drop_ge by lia.
      replace (length reserves - i) with 0 by lia.
      by destruct rest.
Qed.

(** C6, as stated, fails: the length of the response is never compared
    with the number of markets.  Two markets and a response of three
    entries: no error, the third entry is dropped.  Two markets and a
    response of one entry: the first market has its reserves replaced
    before the missing second entry makes the loop throw. *)
Lemma updateReserves_length_unchecked :
  updateReserves (Sample.node [] [(1, 2); (3, 4); (5, 6)]%Z)
    [Sample.poolA; Sample.poolB]
  = (Ok (), [synchronised Sample.poolA (1, 2)%Z;
             synchronised Sample.poolB (3, 4)%Z])
  ∧ updateReserves (Sample.node [] [(1, 2)]%Z) [Sample.poolA; Sample.poolB]
    = (Throw UndefinedReserve,
       [synchronised Sample.poolA (1, 2)%Z; Sample.poolB])
  ∧ synchronised Sample.poolA (1, 2)%Z ≠ Sample.poolA.
Proof. split; [|split]; [reflexivity | reflexivity | by vm_compute]. Qed.

Lemma updateReserves_run (provider : JsonRpcProvider)
    (allMarketPairs : list UniswappyV2EthPair) :
  updateReserves provider allMarketPairs
  = let reserves :=
      getReservesByPairs provider (map _marketAddress allMarketPairs) in
    (if decide (length allMarketPairs ≤ length reserves)
     then Ok () else Throw UndefinedReserve,
     zip_with synchronised allMarketPairs reserves
       ++ drop (length reserves) allMarketPairs).
Proof.
  unfold updateReserves. cbv zeta.
  rewrite updateReserves_from_spec by lia.
  by rewrite Nat.sub_0_r.
Qed.

End Synchronisation.

(** ** Discovery *)

Section Pagination.
Context `{Addresses}.
Variables (limit size : nat) (provider : JsonRpcProvider).
Variable factoryAddress : string.

Lemma paginate_exit (fuel i : nat) (requested : list (nat * nat))
    (marketPairs : list UniswappyV2EthPair) :
  ¬ i < limit * size →
  paginate limit size provider factoryAddress fuel i requested marketPairs
  = Some (mkDiscovery requested marketPairs).
Proof.
  intros Hge. destruct fuel; simpl; by rewrite bool_decide_eq_false_2.
Qed.

Lemma paginate_step (fuel i : nat) (requested : list (nat * nat))
    (marketPairs : list UniswappyV2EthPair) :
  i < limit * size →
  paginate limit size provider factoryAddress (S fuel) i requested marketPairs
  = let pairs := getPairsByIndexRange provider factoryAddress i (i + size) in
    if bool_decide (length pairs < size)
    then Some (mkDiscovery (requested ++ [(i, i + size)])
                 (collectPairs pairs marketPairs))
    else paginate limit size provider factoryAddress fuel (i + size)
           (requested ++ [(i, i + size)]) (collectPairs pairs marketPairs).
Proof. intros Hlt. simpl. by rewrite bool_decide_eq_true_2. Qed.

(** With one unit of fuel per remaining batch the loop always finishes;
    it requests consecutive ranges, goes on only after a full batch, and
    stops on a short batch or at the limit. *)
Lemma paginate_spec (fuel : nat) :
  ∀ (k i : nat) (requested : list (nat * nat))
    (marketPairs : list UniswappyV2EthPair),
    0 < size → i = k * size → k + fuel = limit →
    ∃ n, k ≤ n ≤ limit
      ∧ paginate limit size provider factoryAddress fuel i
          requested marketPairs
        = Some (mkDiscovery
                  (requested ++ (batchRange size <$> seq k (n - k)))
                  (fold_left (collectBatch size provider factoryAddress)
                     (seq k (n - k)) marketPairs))
      ∧ (∀ j, k ≤ j → S j < n →
           size ≤ length (batch size provider factoryAddress j))
      ∧ (n = limit
         ∨ k < n
           ∧ length (batch size provider factoryAddress (n - 1)) < size).
Proof.
  induction fuel as [|fuel IH]; intros k i requested marketPairs Hsize -> Hk.
  - exists k. rewrite paginate_exit by (subst limit; nia).
    rewrite Nat.sub_diag. simpl. rewrite app_nil_r.
    repeat split; lia.
  - rewrite paginate_step by nia. cbv zeta.
    fold (batch size provider factoryAddress k).
    case_bool_decide as Hshort.
    + exists (S k). replace (S k - k) with 1 by lia. simpl.
      repeat split; try lia.
      right. split; [lia|]. by rewrite Nat.sub_0_r.
    + destruct (IH (S k) (k * size + size)
                  (requested ++ [(k * size, k * size + size)])
                  (collectPairs (batch size provider factoryAddress k)
                     marketPairs) Hsize ltac:(lia) ltac:(lia))
        as (n & Hn & Hrun & Hfull & Hstop).
      exists n. rewrite Hrun.
      replace (n - k) with (S (n - S k)) by lia. simpl.
      rewrite <- app_assoc. simpl.
      repeat split; try lia.
      intros j Hj Hjn. destruct (decide (j = k)) as [->|Hne]; [lia|].
      apply Hfull; lia.
Qed.

End Pagination.

Section Discovery.
Context `{Addresses}.

Lemma discover_spec (limit size : nat) (provider : JsonRpcProvider)
    (factoryAddress : string) :
  0 < size →
  ∃ n d,
    discover limit size provider factoryAddress = Some d
    ∧ requested d = batchRange size <$> seq 0 n
    ∧ marketPairs d
      = fold_left (collectBatch size provider factoryAddress) (seq 0 n) []
    ∧ n ≤ limit
    ∧ (∀ j, S j < n → size ≤ length (batch size provider factoryAddress j))
    ∧ (n = limit
       ∨ 0 < n ∧ length (batch size provider factoryAddress (n - 1)) < size).
Proof.
  intros Hsize.
  destruct (paginate_spec limit size provider factoryAddress limit
              0 0 [] [] Hsize ltac:(lia) ltac:(lia))
    as (n & Hn & Hrun & Hfull & Hstop).
  rewrite Nat.sub_0_r in Hrun. simpl in Hrun.
  exists n. eexists. split; [exact Hrun|]. simpl.
  repeat split; try lia. intros j Hj. apply Hfull; lia.
Qed.

(** C7.  Discovery requests consecutive index ranges of the batch size,
    starting at 0; it requests a further range only after a batch of at
    least the batch size, and the last range it requests either returned
    fewer records than the batch size or was the last one the batch count
    limit allows.  In particular, when the first batch returns fewer
    records than the batch size, exactly one range is requested, whatever
    the (positive) limit.  With the limit and size of the source,
    [getUniswappyMarkets] returns the markets so collected. *)
Theorem discovery_pagination (provider : JsonRpcProvider)
    (factoryAddress : string) :
  (∀ limit size, 0 < size →
     ∃ n d,
       discover limit size provider factoryAddress = Some d
       ∧ requested d = batchRange size <$> seq 0 n
       ∧ marketPairs d
         = fold_left (collectBatch size provider factoryAddress) (seq 0 n) []
       ∧ n ≤ limit
       ∧ (∀ j, S j < n →
            size ≤ length (batch size provider factoryAddress j))
       ∧ (n = limit
          ∨ 0 < n
            ∧ length (batch size provider factoryAddress (n - 1)) < size))
  ∧ (∀ limit size, 0 < limit →
     length (batch size provider factoryAddress 0) < size →
     ∃ d,
       discover limit size provider factoryAddress = Some d
       ∧ requested d = [(0, size)]
       ∧ marketPairs d
         = collectPairs (batch size provider factoryAddress 0) [])
  ∧ (∃ d,
       discover BATCH_COUNT_LIMIT UNISWAP_BATCH_SIZE provider factoryAddress
       = Some d
       ∧ getUniswappyMarkets provider factoryAddress = Some (marketPairs d)).
Proof.
  split; [|split].
  - intros limit size Hsize. by apply discover_spec.
  - intros limit size Hlimit Hshort. unfold discover.
    destruct limit as [|limit]; [lia|].
    rewrite paginate_step by nia. cbv zeta.
    change (getPairsByIndexRange provider factoryAddress 0 (0 + size))
      with (batch size provider factoryAddress 0).
    rewrite bool_decide_eq_true_2 by done. eauto.
  - destruct (discover_spec BATCH_COUNT_LIMIT UNISWAP_BATCH_SIZE provider
                factoryAddress) as (n & d & Hrun & _).
    { unfold UNISWAP_BATCH_SIZE. lia. }
    exists d. split; [done|]. unfold getUniswappyMarkets. by rewrite Hrun.
Qed.

End Discovery.

Lemma discovery_pagination_witness :
  ∃ d,
    @discover Sample.addresses BATCH_COUNT_LIMIT UNISWAP_BATCH_SIZE
      (Sample.node Sample.registryXY []) "0xFactory" = Some d
    ∧ requested d = [(0, UNISWAP_BATCH_SIZE)]
    ∧ length (marketPairs d) = 4.
Proof.
  destruct (@discovery_pagination Sample.addresses
              (Sample.node Sample.registryXY []) "0xFactory")
    as (_ & Hfirst & _).
  destruct (Hfirst BATCH_COUNT_LIMIT UNISWAP_BATCH_SIZE)
    as (d & Hrun & Hrequested & Hmarkets).
  - unfold BATCH_COUNT_LIMIT. lia.
  - vm_compute. lia.
  - exists d. split; [exact Hrun|]. split; [exact Hrequested|].
    rewrite Hmarkets. reflexivity.
Defined.

(** ** Grouping *)

Section GroupBy.
Context {A : Type} (f : A → string).

Lemma groupBy_snoc (l : list A) (v : A) :
  Lodash.groupBy f (l ++ [v])
  = Lodash.push_group (f v) v (Lodash.groupBy f l).
Proof. unfold Lodash.groupBy. by rewrite fold_left_app. Qed.

Lemma push_group_keys (key : string) (v : A) (g : list (string * list A)) :
  (Lodash.push_group key v g).*1
  = if decide (key ∈ g.*1) then g.*1 else g.*1 ++ [key].
Proof.
  induction g as [|[k vs] g IH].
  - destruct (decide (key ∈ ([] : list (string * list A)).*1)) as [Hin|_];
      [by apply elem_of_nil in Hin | done].
  - change (((k, vs) :: g).*1) with (k :: g.*1).
    change (Lodash.push_group key v ((k, vs) :: g))
      with (if bool_decide (k = key) then (k, vs ++ [v]) :: g
            else (k, vs) :: Lodash.push_group key v g).
    destruct (decide (key ∈ k :: g.*1)) as [Hin|Hnin];
      case_bool_decide as Hk; try done.
    + rewrite fmap_cons, IH. simpl.
      apply elem_of_cons in Hin as [->|Hin]; [done|].
      by rewrite decide_True.
    + subst k. exfalso. apply Hnin, list_elem_of_here.
    + rewrite fmap_cons, IH. simpl.
      apply not_elem_of_cons in Hnin as [_ Hnin].
      by rewrite decide_False.
Qed.

Lemma filter_key_snoc (k : string) (l : list A) (v : A) :
  filter (λ u, f u = k) (l ++ [v])
  = filter (λ u, f u = k) l ++ (if decide (f v = k) then [v] else []).
Proof. by rewrite filter_app. Qed.

(** What [push_group] does to groups that hold, each, the elements of [l]
    with the group's key. *)
Lemma push_group_groups (l : list A) (v : A) (g : list (string * list A)) :
  NoDup g.*1 →
  Forall (λ kv, kv.2 = filter (λ u, f u = kv.1) l) g →
  (f v ∉ g.*1 → filter (λ u, f u = f v) l = []) →
  Forall (λ kv, kv.2 = filter (λ u, f u = kv.1) (l ++ [v]))
    (Lodash.push_group (f v) v g).
Proof.
  induction g as [|[k vs] g IH]; simpl; intros Hnodup Hgroups Hfresh.
  - repeat constructor. simpl.
    rewrite filter_key_snoc, decide_True by done.
    rewrite Hfresh by apply not_elem_of_nil. done.
  - apply NoDup_cons in Hnodup as [Hk Hnodup].
    apply Forall_cons in Hgroups as [Hvs Hgroups]. simpl in Hvs.
    case_bool_decide as Hkey.
    + constructor; simpl.
      * rewrite filter_key_snoc, decide_True by done. by rewrite Hvs.
      * rewrite Forall_forall in Hgroups. apply Forall_forall.
        intros [k' vs'] Hin. simpl.
        rewrite filter_key_snoc, decide_False, app_nil_r.
        { by apply (Hgroups _ Hin). }
        intros Heq. apply Hk. rewrite Hkey, Heq.
        by apply (list_elem_of_fmap_2 fst _ (k', vs')).
    + constructor; simpl.
      * rewrite filter_key_snoc, decide_False, app_nil_r by done. done.
      * apply IH; [done | done |]. intros Hnin. apply Hfresh.
        rewrite not_elem_of_cons. split; [done | done].
Qed.

(** The groups of [groupBy]: distinct keys; each group holds, in order,
    the elements with its key; every key that occurs has a group. *)
Lemma groupBy_groups (l : list A) :
  NoDup (Lodash.groupBy f l).*1
  ∧ Forall (λ kv, kv.2 = filter (λ u, f u = kv.1) l) (Lodash.groupBy f l)
  ∧ ∀ k, k ∉ (Lodash.groupBy f l).*1 → filter (λ u, f u = k) l = [].
Proof.
  induction l as [|v l IH] using rev_ind.
  - split; [apply NoDup_nil_2 | split; [apply Forall_nil_2 | done]].
  - destruct IH as (Hnodup & Hgroups & Hfresh).
    rewrite groupBy_snoc. split; [|split].
    + rewrite push_group_keys. case_decide; [done|].
      apply NoDup_app. repeat split; [done | | apply NoDup_singleton].
      intros k Hk ->%list_elem_of_singleton. done.
    + apply push_group_groups; [done | done | apply Hfresh].
    + intros k Hk. rewrite push_group_keys in Hk.
      rewrite filter_key_snoc.
      destruct (decide (f v ∈ (Lodash.groupBy f l).*1)) as [Hin|Hnin].
      * rewrite Hfresh by done. rewrite decide_False; [done|].
        intros Heq. apply Hk. by rewrite <- Heq.
      * apply not_elem_of_app in Hk as [Hk Hne].
        rewrite Hfresh by done. rewrite decide_False; [done|].
        intros Heq. apply Hne. rewrite Heq. apply list_elem_of_here.
Qed.

End GroupBy.

Section Groups.
Context {A : Type} (f : A → string).

Lemma push_group_nonempty (key : string) (v : A)
    (g : list (string * list A)) :
  Forall (λ kv, kv.2 ≠ []) g →
  Forall (λ kv, kv.2 ≠ []) (Lodash.push_group key v g).
Proof.
  induction g as [|[k vs] g IH]; intros Hg.
  - repeat constructor. done.
  - apply Forall_cons in Hg as [Hvs Hg]. simpl.
    case_bool_decide; constructor; simpl; try done; [|by apply IH].
    intros Hnil. by apply app_eq_nil in Hnil as [_ ?].
Qed.

Lemma groupBy_nonempty (l : list A) :
  Forall (λ kv, kv.2 ≠ []) (Lodash.groupBy f l).
Proof.
  induction l as [|v l IH] using rev_ind; [apply Forall_nil_2|].
  rewrite groupBy_snoc. by apply push_group_nonempty.
Qed.

(** Reading a key of an object with distinct keys. *)
Lemma lookup_group_elem_of (k : string) (g : list (string * list A)) :
  NoDup g.*1 →
  ∀ vs, Lodash.lookup_group k g = Some vs ↔ (k, vs) ∈ g.
Proof.
  induction g as [|[k' vs'] g IH]; intros Hnodup vs; simpl.
  - split; [done | by intros ?%elem_of_nil].
  - apply NoDup_cons in Hnodup as [Hk' Hnodup].
    case_bool_decide as Hk.
    + subst k'. rewrite elem_of_cons. split.
      * intros [= ->]. by left.
      * intros [[= ->]|Hin]; [done|].
        exfalso. apply Hk'. by apply (list_elem_of_fmap_2 fst _ (k, vs)).
    + rewrite IH by done. rewrite elem_of_cons. split; [by right|].
      intros [[= ? ?]|Hin]; [by subst | done].
Qed.

(** [object[key]] on the result of [groupBy]: the elements with that key,
    in order, or [undefined] when there are none. *)
Lemma groupBy_lookup (k : string) (l : list A) :
  Lodash.lookup_group k (Lodash.groupBy f l)
  = match filter (λ u, f u = k) l with
    | [] => None
    | vs => Some vs
    end.
Proof.
  destruct (groupBy_groups f l) as (Hnodup & Hgroups & Hfresh).
  pose proof (groupBy_nonempty l) as Hnonempty.
  rewrite Forall_forall in Hgroups. rewrite Forall_forall in Hnonempty.
  destruct (Lodash.lookup_group k (Lodash.groupBy f l)) as [vs|] eqn:Hlookup.
  - apply lookup_group_elem_of in Hlookup; [|done].
    pose proof (Hgroups _ Hlookup) as Hvs.
    pose proof (Hnonempty _ Hlookup) as Hne. simpl in *.
    rewrite <- Hvs. by destruct vs.
  - rewrite Hfresh; [done|].
    intros ((k' & vs) & Hk & Hin)%list_elem_of_fmap. simpl in Hk. subst k'.
    apply lookup_group_elem_of in Hin; [|done]. congruence.
Qed.

Lemma filter_filter_key (k k' : string) (l : list A) :
  filter (λ u, f u = k) (filter (λ u, f u = k') l)
  = if decide (k' = k) then filter (λ u, f u = k') l else [].
Proof.
  rewrite list_filter_filter. destruct (decide (k' = k)) as [->|Hne].
  - apply list_filter_iff. intros u. split; [by intros [_ ?] | done].
  - induction l as [|u l IHl]; [done|].
    rewrite filter_cons.
    destruct (decide (f u = k ∧ f u = k')) as [[? ?]|_]; [congruence | done].
Qed.

(** Flattening the groups kept by [pickBy], seen key by key. *)
Lemma picked_groups_filter (P : list A → Prop) `{∀ a, Decision (P a)}
    (k : string) (l : list A) (g : list (string * list A)) :
  NoDup g.*1 →
  Forall (λ kv, kv.2 = filter (λ u, f u = kv.1) l) g →
  filter (λ u, f u = k)
    (Lodash.flatten (Lodash.values (Lodash.pickBy P g)))
  = if decide (k ∈ g.*1 ∧ P (filter (λ u, f u = k) l))
    then filter (λ u, f u = k) l else [].
Proof.
  unfold Lodash.flatten, Lodash.values, Lodash.pickBy.
  induction g as [|[k' vs] g IH]; intros Hnodup Hgroups.
  - rewrite decide_False; [done|]. intros [?%elem_of_nil _]. done.
  - rewrite fmap_cons in Hnodup. rewrite fmap_cons.
    change ((k', vs).1) with k' in *.
    apply NoDup_cons in Hnodup as [Hk' Hnodup].
    apply Forall_cons in Hgroups as [Hvs Hgroups].
    change (vs = filter (λ u, f u = k') l) in Hvs.
    specialize (IH Hnodup Hgroups).
    rewrite filter_cons. change ((k', vs).2) with vs.
    assert (Hhead : filter (λ u, f u = k) vs
                    = if decide (k' = k) then vs else []).
    { rewrite Hvs at 1. rewrite filter_filter_key.
      destruct (decide (k' = k)); by rewrite ?Hvs. }
    assert (Hkeys : k ∈ k' :: g.*1 ↔ k' = k ∨ k ∈ g.*1).
    { rewrite elem_of_cons. split; (intros [?|?]; [by left | by right]). }
    destruct (decide (P vs)) as [HP|HP].
    + rewrite map_cons, concat_cons. change ((k', vs).2) with vs.
      rewrite filter_app, IH, Hhead.
      destruct (decide (k' = k)) as [->|Hne].
      * rewrite (decide_False (P := k ∈ g.*1 ∧ _)) by by intros [? _].
        rewrite decide_True, app_nil_r; [done|].
        split; [by left | by rewrite <- Hvs].
      * simpl. destruct (decide (k ∈ g.*1 ∧ P (filter (λ u, f u = k) l)))
          as [[Hin HPk]|Hout].
        -- rewrite decide_True; [done|]. split; [by right | done].
        -- rewrite decide_False; [done|]. intros [Hin HPk]. apply Hout.
           apply Hkeys in Hin as [?|Hin]; [done | by split].
    + rewrite IH.
      destruct (decide (k ∈ g.*1 ∧ P (filter (λ u, f u = k) l)))
        as [[Hin HPk]|Hout].
      * rewrite decide_True; [done|]. split; [by right | done].
      * rewrite decide_False; [done|]. intros [Hin HPk].
        apply Hkeys in Hin as [->|Hin]; [|by apply Hout].
        apply HP. by rewrite Hvs.
Qed.

End Groups.

(** ** Replacing reserves *)

Section Reserves.

(** Whether or not the assignment is skipped, the balances afterwards are
    the zipped object, and nothing else changes. *)
Lemma setReservesViaOrderedBalances_run (balances : list Z)
    (this : UniswappyV2EthPair) :
  setReservesViaOrderedBalances balances this
  = (Ok (),
     mkPair (_marketAddress this) (_tokens this) (_protocol this)
       (Lodash.zipObject (_tokens this) (JBigNumber <$> balances))).
Proof.
  unfold setReservesViaOrderedBalances, setReservesViaMatchingArray,
    mbind, Method_bind, read, assign_tokenBalances, Lodash.isEqual.
  case_bool_decide as Heq; simpl; [|done].
  destruct this as [address tokens protocol current]. simpl in *.
  by rewrite Heq.
Qed.

Lemma zipObject_two (t0 t1 : string) (v0 v1 : jsval) :
  Lodash.zipObject [t0; t1] [v0; v1] = <[t1 := v1]> (<[t0 := v0]> ∅).
Proof. reflexivity. Qed.

Lemma get_own (obj : gmap string jsval) (key : string) (v : jsval) :
  obj !! key = Some v → Js.get obj key = v.
Proof. intros Hlookup. unfold Js.get. by rewrite Hlookup. Qed.

End Reserves.

Section Grouper.
Context `{Addresses}.

Lemma synchronised_fields (marketPair : UniswappyV2EthPair)
    (reserve : Z * Z) :
  _tokens (synchronised marketPair reserve) = _tokens marketPair
  ∧ _marketAddress (synchronised marketPair reserve)
    = _marketAddress marketPair
  ∧ _tokenBalances (synchronised marketPair reserve)
    = Lodash.zipObject (_tokens marketPair)
        [JBigNumber reserve.1; JBigNumber reserve.2].
Proof.
  unfold synchronised. by rewrite setReservesViaOrderedBalances_run.
Qed.

(** A market of two assets, one of them the quote asset, holds a reserve
    of the quote asset once synchronised. *)
Lemma synchronised_quoteReserve (marketPair : UniswappyV2EthPair)
    (reserve : Z * Z) (t0 t1 : string) :
  _tokens marketPair = [t0; t1] →
  t0 = WETH_ADDRESS ∨ t1 = WETH_ADDRESS →
  quoteReserve (synchronised marketPair reserve)
  = Some (if decide (t1 = WETH_ADDRESS) then reserve.2 else reserve.1).
Proof.
  intros Htokens Hquote. unfold quoteReserve.
  destruct (synchronised_fields marketPair reserve) as (_ & _ & ->).
  rewrite Htokens, zipObject_two.
  destruct (decide (t1 = WETH_ADDRESS)) as [->|Hne].
  - by rewrite (get_own _ _ (JBigNumber reserve.2))
      by apply lookup_insert_eq.
  - destruct Hquote as [->|?]; [|done].
    rewrite (get_own _ _ (JBigNumber reserve.1)); [done|].
    rewrite lookup_insert_ne by done. apply lookup_insert_eq.
Qed.

Lemma aboveMinimumLiquidity_run (marketPair : UniswappyV2EthPair) (n : Z) :
  quoteReserve marketPair = Some n →
  aboveMinimumLiquidity marketPair = Ok (bool_decide (ETHER < n)%Z).
Proof.
  unfold quoteReserve, aboveMinimumLiquidity, getBalance, mbind, Method_bind,
    read.
  destruct (Js.get (_tokenBalances marketPair) WETH_ADDRESS) eqn:Hget;
    intros [= <-].
  by rewrite bool_decide_eq_false_2.
Qed.

Lemma filter_pairs_liquid (allMarketPairs : list UniswappyV2EthPair) :
  Forall (λ m, is_Some (quoteReserve m)) allMarketPairs →
  filter_pairs aboveMinimumLiquidity allMarketPairs
  = Ok (filter liquid allMarketPairs).
Proof.
  induction 1 as [|m ms [n Hn] _ IH]; [done|].
  simpl. rewrite (aboveMinimumLiquidity_run m n Hn). simpl.
  rewrite IH. simpl. rewrite filter_cons.
  destruct (decide (liquid m)) as [Hliquid|Hdry].
  - destruct Hliquid as (n' & Hn' & Hlt).
    rewrite Hn in Hn'. injection Hn' as <-.
    by rewrite bool_decide_eq_true_2.
  - rewrite bool_decide_eq_false_2; [done|].
    intros Hlt. apply Hdry. by exists n.
Qed.

Lemma groupCandidates_filter (allPairs : list (list UniswappyV2EthPair))
    (token : string) :
  filter (λ m, nonQuoteToken m = token) (groupCandidates allPairs)
  = if decide (1 < length (filter (λ m, nonQuoteToken m = token)
                             (Lodash.flatten allPairs)))
    then filter (λ m, nonQuoteToken m = token) (Lodash.flatten allPairs)
    else [].
Proof.
  unfold groupCandidates.
  destruct (groupBy_groups nonQuoteToken (Lodash.flatten allPairs))
    as (Hnodup & Hgroups & Hfresh).
  rewrite (picked_groups_filter nonQuoteToken (λ a, 1 < length a) token
             (Lodash.flatten allPairs)) by done.
  destruct (decide (token ∈ (Lodash.groupBy nonQuoteToken
                               (Lodash.flatten allPairs)).*1)) as [Hin|Hout].
  - repeat case_decide; try done; exfalso; tauto.
  - rewrite (Hfresh _ Hout). by repeat case_decide.
Qed.

Lemma groupCandidates_elem_of (allPairs : list (list UniswappyV2EthPair))
    (m : UniswappyV2EthPair) :
  m ∈ groupCandidates allPairs → m ∈ Lodash.flatten allPairs.
Proof.
  intros Hin.
  assert (Hm : m ∈ filter (λ m', nonQuoteToken m' = nonQuoteToken m)
                      (groupCandidates allPairs)).
  { by apply list_elem_of_filter. }
  rewrite groupCandidates_filter in Hm.
  case_decide; [|by apply elem_of_nil in Hm].
  by apply list_elem_of_filter in Hm as [_ ?].
Qed.

End Grouper.

Section Discovered.
Context `{Addresses}.

(** Every market discovery builds has two assets, one of them the quote
    asset. *)
Lemma collectPairs_tokens (pairs : list (string * string * string)) :
  ∀ marketPairs : list UniswappyV2EthPair,
    Forall (λ m, ∃ t0 t1, _tokens m = [t0; t1]
                          ∧ (t0 = WETH_ADDRESS ∨ t1 = WETH_ADDRESS))
      marketPairs →
    Forall (λ m, ∃ t0 t1, _tokens m = [t0; t1]
                          ∧ (t0 = WETH_ADDRESS ∨ t1 = WETH_ADDRESS))
      (collectPairs pairs marketPairs).
Proof.
  induction pairs as [|[[t0 t1] address] pairs IH]; intros marketPairs Hall;
    [done|].
  simpl. repeat case_bool_decide; repeat case_match; try by apply IH.
  - apply IH, Forall_app. split; [done|].
    apply Forall_singleton. exists t0, t1. split; [done | by left].
  - apply IH, Forall_app. split; [done|].
    apply Forall_singleton. exists t0, t1. split; [done | by right].
Qed.

Lemma getUniswappyMarkets_total (provider : JsonRpcProvider)
    (factoryAddress : string) :
  ∃ marketPairs,
    getUniswappyMarkets provider factoryAddress = Some marketPairs
    ∧ Forall (λ m, ∃ t0 t1, _tokens m = [t0; t1]
                            ∧ (t0 = WETH_ADDRESS ∨ t1 = WETH_ADDRESS))
        marketPairs.
Proof.
  destruct (discover_spec BATCH_COUNT_LIMIT UNISWAP_BATCH_SIZE provider
              factoryAddress) as (n & d & Hrun & _ & Hmarkets & _).
  { unfold UNISWAP_BATCH_SIZE. lia. }
  exists (marketPairs d). unfold getUniswappyMarkets. rewrite Hrun.
  split; [done|]. rewrite Hmarkets. clear.
  assert (Hfold : ∀ (ks : list nat) (acc : list UniswappyV2EthPair),
    Forall (λ m, ∃ t0 t1, _tokens m = [t0; t1]
                          ∧ (t0 = WETH_ADDRESS ∨ t1 = WETH_ADDRESS)) acc →
    Forall (λ m, ∃ t0 t1, _tokens m = [t0; t1]
                          ∧ (t0 = WETH_ADDRESS ∨ t1 = WETH_ADDRESS))
      (fold_left (collectBatch UNISWAP_BATCH_SIZE provider factoryAddress)
         ks acc)).
  { induction ks as [|k ks IH]; intros acc Hacc; [done|].
    simpl. apply IH. unfold collectBatch. by apply collectPairs_tokens. }
  apply Hfold. apply Forall_nil_2.
Qed.

Lemma discovery_total (provider : JsonRpcProvider)
    (factoryAddresses : list string) :
  ∃ allPairs,
    mapM (getUniswappyMarkets provider) factoryAddresses = Some allPairs
    ∧ Forall (λ m, ∃ t0 t1, _tokens m = [t0; t1]
                            ∧ (t0 = WETH_ADDRESS ∨ t1 = WETH_ADDRESS))
        (Lodash.flatten allPairs).
Proof.
  induction factoryAddresses as [|factoryAddress rest (allPairs & Hrun & Hall)].
  - exists []. split; [done | apply Forall_nil_2].
  - destruct (getUniswappyMarkets_total provider factoryAddress)
      as (marketPairs & Hfirst & Htokens).
    exists (marketPairs :: allPairs). split.
    + apply mapM_Some. constructor; [done | by apply mapM_Some].
    + unfold Lodash.flatten in *. simpl. apply Forall_app. by split.
Qed.

End Discovered.

Section TwoPasses.
Context `{Addresses}.

(** C8.  The first pass keeps, of the markets discovered, exactly the
    groups (by non-quote asset) of two or more markets, in order.  After
    the kept markets are synchronised (the response covering them all),
    every one of them holds a reserve of the quote asset; the index
    returned groups, by non-quote asset, exactly those whose reserve of
    the quote asset exceeds [ETHER], those at or below it being dropped
    one by one.  With one pool of X and three pools of Y the first pass
    keeps the three pools of Y only; if their quote reserves all end up at
    or below [ETHER] the index is empty. *)
Theorem two_pass_grouping (provider : JsonRpcProvider)
    (factoryAddresses : list string) :
  (∀ (allPairs : list (list UniswappyV2EthPair)) (token : string),
     filter (λ m, nonQuoteToken m = token) (groupCandidates allPairs)
     = if decide (1 < length (filter (λ m, nonQuoteToken m = token)
                                (Lodash.flatten allPairs)))
       then filter (λ m, nonQuoteToken m = token) (Lodash.flatten allPairs)
       else [])
  ∧ (∃ allPairs,
       mapM (getUniswappyMarkets provider) factoryAddresses = Some allPairs
       ∧ let candidates := groupCandidates allPairs in
         let reserves :=
           getReservesByPairs provider (map _marketAddress candidates) in
         let synced := zip_with synchronised candidates reserves in
         length candidates ≤ length reserves →
         ∃ index,
           getUniswapMarketsByToken provider factoryAddresses
           = Some (Ok (mkGrouped index synced))
           ∧ Forall (λ m, is_Some (quoteReserve m)) synced
           ∧ index = Lodash.groupBy nonQuoteToken (filter liquid synced)
           ∧ ∀ token,
               Lodash.lookup_group token index
               = match filter (λ m, nonQuoteToken m = token)
                         (filter liquid synced) with
                 | [] => None
                 | group => Some group
                 end)
  ∧ @groupCandidates Sample.addresses
      [[Sample.poolX1; Sample.poolY1; Sample.poolY2; Sample.poolY3]]
    = [Sample.poolY1; Sample.poolY2; Sample.poolY3]
  ∧ @getUniswapMarketsByToken Sample.addresses
      (Sample.node Sample.registryXY Sample.lowReserves) ["0xFactory"]
    = Some (Ok (mkGrouped []
                  (zip_with synchronised
                     [Sample.poolY1; Sample.poolY2; Sample.poolY3]
                     Sample.lowReserves))).
Proof.
  split; [|split; [|split; by vm_compute]].
  { intros allPairs token. apply groupCandidates_filter. }
  destruct (discovery_total provider factoryAddresses)
    as (allPairs & Hrun & Htokens).
  exists allPairs. split; [done|]. intros candidates reserves synced Hlength.
  assert (Hreserves : Forall (λ m, is_Some (quoteReserve m)) synced).
  { rewrite Forall_forall in Htokens. apply Forall_forall.
    intros m (candidate & reserve & -> & Hcandidate & _)%elem_of_zip_with.
    apply groupCandidates_elem_of in Hcandidate.
    destruct (Htokens _ Hcandidate) as (t0 & t1 & Ht & Hquote).
    by rewrite (synchronised_quoteReserve candidate reserve t0 t1 Ht Hquote). }
  exists (Lodash.groupBy nonQuoteToken (filter liquid synced)).
  split; [|split; [done|split; [done|]]].
  - unfold getUniswapMarketsByToken. rewrite Hrun. simpl.
    fold candidates.
    pose proof (updateReserves_run provider candidates) as Hupdate.
    cbv zeta in Hupdate. fold reserves in Hupdate.
    rewrite decide_True in Hupdate by done.
    rewrite drop_ge, app_nil_r in Hupdate by done.
    fold synced in Hupdate. rewrite Hupdate. simpl.
    unfold groupLiquid. by rewrite filter_pairs_liquid.
  - intros token. apply groupBy_lookup.
Qed.

End TwoPasses.

Lemma two_pass_grouping_witness :
  ∃ index synced,
    @getUniswapMarketsByToken Sample.addresses
      (Sample.node Sample.registryXY Sample.mixedReserves) ["0xFactory"]
    = Some (Ok (mkGrouped index synced))
    ∧ Lodash.lookup_group "0xY" index
      = Some [synchronised Sample.poolY1 (ETHER + 1, 5)%Z;
              synchronised Sample.poolY3 (2 * ETHER, 9)%Z]
    ∧ Lodash.lookup_group "0xX" index = None.
Proof.
  destruct (@two_pass_grouping Sample.addresses
              (Sample.node Sample.registryXY Sample.mixedReserves)
              ["0xFactory"]) as (_ & (allPairs & Hrun & Hsync) & _).
  vm_compute in Hrun. injection Hrun as <-.
  destruct Hsync as (index & Hget & _ & _ & Hlookup).
  { vm_compute. lia. }
  exists index. eexists. split; [exact Hget|].
  rewrite (Hlookup "0xY"), (Hlookup "0xX"). split; reflexivity.
Defined.

(** ** Swap calldata *)

Section SellTokens.
Local Open Scope Z_scope.

Lemma getTokensOut_pure (tokenIn tokenOut : string) (amountIn : Z)
    (this : UniswappyV2EthPair) :
  (getTokensOut tokenIn tokenOut amountIn this).2 = this.
Proof. reflexivity. Qed.

Lemma swapArguments_pure (tokenIn : string) (amountIn : Z)
    (recipient : string) (this : UniswappyV2EthPair) :
  (swapArguments tokenIn amountIn recipient this).2 = this.
Proof.
  unfold swapArguments, mbind, Method_bind, tokens, read.
  repeat case_bool_decide;
    try (pose proof (getTokensOut_pure tokenIn
                       (Js.to_property_key (_tokens this !! 1%nat))
                       amountIn this);
         destruct (getTokensOut tokenIn
                     (Js.to_property_key (_tokens this !! 1%nat))
                     amountIn this) as [[?|?] ?]);
    try (pose proof (getTokensOut_pure tokenIn
                       (Js.to_property_key (_tokens this !! 0%nat))
                       amountIn this);
         destruct (getTokensOut tokenIn
                     (Js.to_property_key (_tokens this !! 0%nat))
                     amountIn this) as [[?|?] ?]);
    done.
Qed.

Lemma sellTokens_pure `{Encoder} (tokenIn : string) (amountIn : Z)
    (recipient : string) (this : UniswappyV2EthPair) :
  (sellTokens tokenIn amountIn recipient this).2 = this.
Proof.
  unfold sellTokens, mbind at 1, Method_bind.
  pose proof (swapArguments_pure tokenIn amountIn recipient this) as Hpure.
  destruct (swapArguments tokenIn amountIn recipient this)
    as [[arguments|e] this']; simpl in Hpure; subst this'; [|done].
  unfold mbind, Method_bind, lift.
  by destruct (populateTransaction_swap arguments) as [[data|]|].
Qed.

Lemma swapArguments_first (this : UniswappyV2EthPair) (A B : string)
    (amountIn : Z) (recipient : string) :
  _tokens this = [A; B] →
  swapArguments A amountIn recipient this
  = ((out ← (getTokensOut A B amountIn this).1;
      Ok (mkSwap 0 out recipient [])), this).
Proof.
  intros Htokens.
  unfold swapArguments, mbind at 1, Method_bind at 1, tokens, read.
  rewrite Htokens.
  change ([A; B] !! 0%nat) with (Some A).
  change (Js.to_property_key ([A; B] !! 1%nat)) with B.
  rewrite bool_decide_eq_true_2 by done.
  unfold mbind at 1, Method_bind at 1.
  pose proof (getTokensOut_pure A B amountIn this) as Hpure.
  destruct (getTokensOut A B amountIn this) as [[out|e] this'];
    simpl in Hpure; by subst this'.
Qed.

Lemma swapArguments_second (this : UniswappyV2EthPair) (A B : string)
    (amountIn : Z) (recipient : string) :
  _tokens this = [A; B] → A ≠ B →
  swapArguments B amountIn recipient this
  = ((out ← (getTokensOut B A amountIn this).1;
      Ok (mkSwap out 0 recipient [])), this).
Proof.
  intros Htokens Hne.
  unfold swapArguments, mbind at 1, Method_bind at 1, tokens, read.
  rewrite Htokens.
  change ([A; B] !! 0%nat) with (Some A).
  change ([A; B] !! 1%nat) with (Some B).
  change (Js.to_property_key (Some A)) with A.
  rewrite bool_decide_eq_false_2 by congruence.
  rewrite bool_decide_eq_true_2 by done.
  unfold mbind at 1, Method_bind at 1.
  pose proof (getTokensOut_pure B A amountIn this) as Hpure.
  destruct (getTokensOut B A amountIn this) as [[out|e] this'];
    simpl in Hpure; by subst this'.
Qed.

Lemma swapArguments_other (this : UniswappyV2EthPair) (A B tokenIn : string)
    (amountIn : Z) (recipient : string) :
  _tokens this = [A; B] → tokenIn ≠ A → tokenIn ≠ B →
  swapArguments tokenIn amountIn recipient this
  = (Throw BadTokenInputAddress, this).
Proof.
  intros Htokens HA HB.
  unfold swapArguments, mbind at 1, Method_bind at 1, tokens, read.
  rewrite Htokens. simpl.
  by rewrite !bool_decide_eq_false_2 by congruence.
Qed.

(** A floor of non-negative numbers is non-zero exactly when the numerator
    reaches the denominator. *)
Lemma div_nonzero_iff (n d : Z) : 0 ≤ n → 0 < d → n `div` d ≠ 0 ↔ d ≤ n.
Proof.
  intros Hn Hd. split.
  - intros Hq. destruct (decide (d ≤ n)); [done|].
    exfalso. apply Hq. apply Z.div_small. lia.
  - intros Hle Hq. pose proof (Z.mul_succ_div_gt n d Hd). rewrite Hq in *. lia.
Qed.

End SellTokens.

Section SwapCalldata.
Context `{Encoder}.
Local Open Scope Z_scope.

(** C9, as stated, fails: the amount written to the other asset's slot is
    the truncated forward quote, which can be zero.  Selling 1 of A into
    reserves of 1000 A and 1 B, or 5 of A into a market that has no
    reserves yet, puts zero in both slots. *)
Lemma swapArguments_zero_output :
  swapArguments "0xA" 1 "0xRecipient" (Sample.with_reserves 1000 1)
  = (Ok (mkSwap 0 0 "0xRecipient" []), Sample.with_reserves 1000 1)
  ∧ swapArguments "0xA" 5 "0xRecipient" Sample.fresh
    = (Ok (mkSwap 0 0 "0xRecipient" []), Sample.fresh)
  ∧ _tokens (Sample.with_reserves 1000 1) = ["0xA"; "0xB"]
  ∧ _tokens Sample.fresh = ["0xA"; "0xB"].
Proof. repeat split; reflexivity. Qed.

(** C9 (amended).  For a market with [tokens = (A, B)], [A ≠ B], holding
    non-negative reserves, and a non-negative [amountIn] (with [reserveA]
    or [amountIn] positive, so that the quote is defined): [sellTokens] with
    [assetIn = A] hands the encoder zero as [amount0Out] and the forward
    quote [getTokensOut(A, B, amountIn)] as [amount1Out], which is non-zero
    exactly when [amountIn * 997 * reserveB >= reserveA * 1000 + amountIn * 997];
    symmetrically for [assetIn = B].  With an asset that is not a
    constituent it throws ("Bad token input address") without reaching the
    encoder.  In every case the market is left as it was. *)
Theorem sellTokens_slots (this : UniswappyV2EthPair) (A B : string)
    (reserveA reserveB amountIn : Z) (recipient : string) :
  _tokens this = [A; B] → A ≠ B →
  Js.get (_tokenBalances this) A = JBigNumber reserveA →
  Js.get (_tokenBalances this) B = JBigNumber reserveB →
  0 ≤ reserveA → 0 ≤ reserveB → 0 ≤ amountIn →
  (0 < reserveA ∨ 0 < amountIn →
     let out := (amountIn * 997 * reserveB)
                  `div` (reserveA * 1000 + amountIn * 997) in
     swapArguments A amountIn recipient this
     = (Ok (mkSwap 0 out recipient []), this)
     ∧ sellTokens A amountIn recipient this
       = ((populated ← populateTransaction_swap (mkSwap 0 out recipient []);
           match populated with None => Throw HI | Some data => Ok data end),
          this)
     ∧ (out ≠ 0
        ↔ reserveA * 1000 + amountIn * 997 ≤ amountIn * 997 * reserveB))
  ∧ (0 < reserveB ∨ 0 < amountIn →
     let out := (amountIn * 997 * reserveA)
                  `div` (reserveB * 1000 + amountIn * 997) in
     swapArguments B amountIn recipient this
     = (Ok (mkSwap out 0 recipient []), this)
     ∧ sellTokens B amountIn recipient this
       = ((populated ← populateTransaction_swap (mkSwap out 0 recipient []);
           match populated with None => Throw HI | Some data => Ok data end),
          this)
     ∧ (out ≠ 0
        ↔ reserveB * 1000 + amountIn * 997 ≤ amountIn * 997 * reserveA))
  ∧ (∀ tokenIn, tokenIn ≠ A → tokenIn ≠ B →
     swapArguments tokenIn amountIn recipient this
     = (Throw BadTokenInputAddress, this)
     ∧ sellTokens tokenIn amountIn recipient this
       = (Throw BadTokenInputAddress, this))
  ∧ (∀ tokenIn, (sellTokens tokenIn amountIn recipient this).2 = this).
Proof.
  intros Htokens Hne HA HB HrA HrB Ha.
  split; [|split; [|split]].
  - intros Hpos out.
    assert (Hargs : swapArguments A amountIn recipient this
                    = (Ok (mkSwap 0 out recipient []), this)).
    { rewrite (swapArguments_first this A B) by done.
      rewrite (getTokensOut_run this A B reserveA reserveB) by done.
      simpl. by rewrite getAmountOut_floor by done. }
    split; [done|]. split.
    + unfold sellTokens, mbind at 1, Method_bind at 1. rewrite Hargs.
      unfold mbind at 1, Method_bind at 1, lift.
      by destruct (populateTransaction_swap _) as [[data|]|].
    + apply div_nonzero_iff; [apply Z.mul_nonneg_nonneg|]; lia.
  - intros Hpos out.
    assert (Hargs : swapArguments B amountIn recipient this
                    = (Ok (mkSwap out 0 recipient []), this)).
    { rewrite (swapArguments_second this A B) by done.
      rewrite (getTokensOut_run this B A reserveB reserveA) by done.
      simpl. by rewrite getAmountOut_floor by done. }
    split; [done|]. split.
    + unfold sellTokens, mbind at 1, Method_bind at 1. rewrite Hargs.
      unfold mbind at 1, Method_bind at 1, lift.
      by destruct (populateTransaction_swap _) as [[data|]|].
    + apply div_nonzero_iff; [apply Z.mul_nonneg_nonneg|]; lia.
  - intros tokenIn HtA HtB.
    pose proof (swapArguments_other this A B tokenIn amountIn recipient
                  Htokens HtA HtB) as Hargs.
    split; [done|].
    unfold sellTokens, mbind at 1, Method_bind at 1. by rewrite Hargs.
  - intros tokenIn. apply sellTokens_pure.
Qed.

End SwapCalldata.

Lemma sellTokens_slots_witness :
  swapArguments "0xA" 1000 "0xRecipient" (Sample.with_reserves 1000000 1000000)
  = (Ok (mkSwap 0 996 "0xRecipient" []), Sample.with_reserves 1000000 1000000)
  ∧ swapArguments "0xB" 1000 "0xRecipient"
      (Sample.with_reserves 1000000 1000000)
    = (Ok (mkSwap 996 0 "0xRecipient" []),
       Sample.with_reserves 1000000 1000000)
  ∧ @sellTokens Sample.encoder "0xC" 1000 "0xRecipient"
      (Sample.with_reserves 1000000 1000000)
    = (Throw BadTokenInputAddress, Sample.with_reserves 1000000 1000000).
Proof.
  destruct (@sellTokens_slots Sample.encoder
              (Sample.with_reserves 1000000 1000000) "0xA" "0xB"
              1000000 1000000 1000 "0xRecipient")
    as (HsellA & HsellB & Hother & _);
    [reflexivity | discriminate | reflexivity | reflexivity
    | lia | lia | lia |].
  split; [|split].
  - apply HsellA. lia.
  - apply HsellB. lia.
  - apply (Hother "0xC"); discriminate.
Defined.

(** ** The token-balance mapping *)

Section TokenBalances.
Variables (marketAddress A B protocol : string).
Hypothesis distinct : A ≠ B.

(** The two assets are the own keys, whatever the arrays passed; the
    values are [BigNumber]s when every array had two entries or more. *)
Lemma reachable_shape (admissible : list Z → Prop)
    (this : UniswappyV2EthPair) :
  reachable admissible marketAddress A B protocol this →
  _tokens this = [A; B]
  ∧ ∃ vA vB,
      _tokenBalances this = <[B := vB]> (<[A := vA]> ∅)
      ∧ ((∀ balances, admissible balances → 2 ≤ length balances) →
         ∃ reserveA reserveB,
           vA = JBigNumber reserveA ∧ vB = JBigNumber reserveB).
Proof.
  induction 1 as [|this balances _ [Htokens _] Hadmissible].
  - split; [done|]. eexists _, _. split; [reflexivity|].
    intros _. by eexists _, _.
  - rewrite setReservesViaOrderedBalances_run. simpl.
    split; [done|]. rewrite Htokens.
    exists (default JUndefined (head (JBigNumber <$> balances))),
      (default JUndefined (head (tail (JBigNumber <$> balances)))).
    split; [done|]. intros Hlength.
    specialize (Hlength _ Hadmissible).
    destruct balances as [|reserveA [|reserveB balances]];
      simpl in Hlength; try lia.
    by exists reserveA, reserveB.
Qed.

Lemma own_keys (vA vB : jsval) (key : string) :
  is_Some ((<[B := vB]> (<[A := vA]> (∅ : gmap string jsval))) !! key)
  ↔ key = A ∨ key = B.
Proof.
  rewrite <- elem_of_dom, !dom_insert_L, dom_empty_L.
  rewrite !elem_of_union, !elem_of_singleton, elem_of_empty. tauto.
Qed.

Lemma own_values (vA vB : jsval) :
  Js.get (<[B := vB]> (<[A := vA]> ∅)) A = vA
  ∧ Js.get (<[B := vB]> (<[A := vA]> ∅)) B = vB.
Proof.
  split; apply get_own.
  - rewrite lookup_insert_ne by done. apply lookup_insert_eq.
  - apply lookup_insert_eq.
Qed.

End TokenBalances.

Section Invariant.

(** C10, as stated, fails twice.  An array with fewer than two balances
    leaves a constituent asset as a key whose value is [undefined]: the key
    set is still the two assets, yet [getBalance] throws ("bad token") and
    the quotes throw on the missing reserve.  And [in] also finds what a
    plain object inherits: [receiveDirectly] answers [true] for
    ["toString"], which is no constituent. *)
Lemma constituent_without_balance :
  reachable (λ _, True) "0xPool" "0xA" "0xB" ""
    (setReservesViaOrderedBalances [5%Z] Sample.fresh).2
  ∧ dom (_tokenBalances (setReservesViaOrderedBalances [5%Z] Sample.fresh).2)
    = ({["0xA"; "0xB"]} : gset string)
  ∧ (getBalance "0xB" (setReservesViaOrderedBalances [5%Z] Sample.fresh).2).1
    = Throw BadToken
  ∧ (getTokensOut "0xA" "0xB" 1
       (setReservesViaOrderedBalances [5%Z] Sample.fresh).2).1
    = Throw NotABigNumber
  ∧ (getTokensIn "0xA" "0xB" 1
       (setReservesViaOrderedBalances [5%Z] Sample.fresh).2).1
    = Throw NotABigNumber
  ∧ (receiveDirectly "toString" Sample.fresh).1 = Ok true
  ∧ "toString" ≠ "0xA" ∧ "toString" ≠ "0xB".
Proof.
  split; [|split; [|repeat split; done]].
  - apply reachable_set; [apply reachable_new | done].
  - apply set_eq. intros key.
    rewrite elem_of_dom, elem_of_union, !elem_of_singleton.
    apply (own_keys "0xA" "0xB").
Qed.

(** C10 (amended).  For a market constructed with two distinct assets,
    after construction and after any calls of
    [setReservesViaOrderedBalances]: the own keys of the token-balance
    mapping are exactly the two assets, and [receiveDirectly] answers
    [true] for the two assets and, apart from them, only for the property
    names every object inherits (so, among names that are not inherited,
    exactly for the two assets).  If moreover every call passed two
    balances or more, both assets hold a [BigNumber]: [getBalance] returns
    it, and [getTokensIn] and [getTokensOut] between the assets run the
    quote on the two reserves instead of failing on a missing one. *)
Theorem token_balances_keys (marketAddress A B protocol : string) :
  A ≠ B →
  (∀ this,
     reachable (λ _, True) marketAddress A B protocol this →
     dom (_tokenBalances this) = ({[A; B]} : gset string)
     ∧ (∀ key,
          receiveDirectly key this
          = (Ok (bool_decide (key = A ∨ key = B) || Js.inherited key), this))
     ∧ (∀ key, Js.inherited key = false →
          (receiveDirectly key this).1 = Ok true ↔ key = A ∨ key = B))
  ∧ (∀ this,
       reachable (λ balances, 2 ≤ length balances)
         marketAddress A B protocol this →
       ∃ reserve : string → Z,
         ∀ tokenIn tokenOut,
           tokenIn = A ∨ tokenIn = B → tokenOut = A ∨ tokenOut = B →
           getBalance tokenIn this = (Ok (JBigNumber (reserve tokenIn)), this)
           ∧ ∀ amount,
               getTokensIn tokenIn tokenOut amount this
               = (getAmountIn (reserve tokenIn) (reserve tokenOut) amount,
                  this)
               ∧ getTokensOut tokenIn tokenOut amount this
                 = (getAmountOut (reserve tokenIn) (reserve tokenOut) amount,
                    this)).
Proof.
  intros distinct. split.
  - intros this Hreach.
    destruct (reachable_shape marketAddress A B protocol _ this Hreach)
      as (_ & vA & vB & Hbalances & _).
    assert (Hreceive : ∀ key,
      receiveDirectly key this
      = (Ok (bool_decide (key = A ∨ key = B) || Js.inherited key), this)).
    { intros key.
      unfold receiveDirectly, mbind, Method_bind, read, mret, Method_ret,
        Js.has_property.
      rewrite Hbalances. do 3 f_equal. by apply bool_decide_ext, own_keys. }
    split; [|split; [done|]].
    + rewrite Hbalances. apply set_eq. intros key.
      rewrite elem_of_dom, elem_of_union, !elem_of_singleton.
      apply own_keys.
    + intros key Hkey. rewrite Hreceive, Hkey, orb_false_r. simpl.
      split.
      * intros [= Hdecide]. by apply bool_decide_eq_true_1 in Hdecide.
      * intros Hconstituent. by rewrite bool_decide_eq_true_2.
  - intros this Hreach.
    destruct (reachable_shape marketAddress A B protocol _ this Hreach)
      as (_ & vA & vB & Hbalances & Hvalues).
    destruct Hvalues as (reserveA & reserveB & -> & ->); [done|].
    destruct (own_values A B distinct (JBigNumber reserveA)
                (JBigNumber reserveB)) as [HgetA HgetB].
    rewrite <- Hbalances in HgetA, HgetB.
    exists (λ token, if decide (token = A) then reserveA else reserveB).
    assert (Hget : ∀ token, token = A ∨ token = B →
      Js.get (_tokenBalances this) token
      = JBigNumber (if decide (token = A) then reserveA else reserveB)).
    { intros token [->| ->].
      - by rewrite decide_True.
      - by rewrite decide_False by done. }
    intros tokenIn tokenOut Hin Hout. split.
    + unfold getBalance, mbind, Method_bind, read. simpl.
      by rewrite (Hget tokenIn Hin).
    + intros amount. split.
      * by apply getTokensIn_run; apply Hget.
      * by apply getTokensOut_run; apply Hget.
Qed.

Lemma token_balances_keys_witness :
  dom (_tokenBalances (Sample.with_reserves 3 4))
  = ({["0xA"; "0xB"]} : gset string)
  ∧ ((receiveDirectly "0xC" (Sample.with_reserves 3 4)).1 = Ok true
     ↔ "0xC" = "0xA" ∨ "0xC" = "0xB")
  ∧ ∃ reserve : string → Z,
      getBalance "0xA" (Sample.with_reserves 3 4)
      = (Ok (JBigNumber (reserve "0xA")), Sample.with_reserves 3 4).
Proof.
  destruct (token_balances_keys "0xPool" "0xA" "0xB" "" ltac:(discriminate))
    as [Hkeys Hvalues].
  destruct (Hkeys (Sample.with_reserves 3 4)) as (Hdom & _ & Hreceive).
  { apply reachable_set; [apply reachable_new | done]. }
  destruct (Hvalues (Sample.with_reserves 3 4)) as [reserve Hreserve].
  { apply reachable_set; [apply reachable_new | simpl; lia]. }
  split; [exact Hdom|]. split; [by apply Hreceive|].
  exists reserve. apply (Hreserve "0xA" "0xB"); [by left | by right].
Defined.

End Invariant.

(** * Further properties *)

(** ** The quotes and the pool's invariant *)

Section ConstantProduct.
Local Open Scope Z_scope.

(** X1.  Against positive reserves, the forward quote of a non-negative
    input is non-negative and strictly below the output reserve (a swap
    never drains the pool), is zero for a zero input, and never beats the
    spot price after the 0.3% fee:
    [out * 1000 * reserveIn <= amountIn * 997 * reserveOut]. *)
Theorem getAmountOut_bounded (reserveIn reserveOut amountIn : Z) :
  0 < reserveIn → 0 < reserveOut → 0 ≤ amountIn →
  ∃ out,
    getAmountOut reserveIn reserveOut amountIn = Ok out
    ∧ 0 ≤ out < reserveOut
    ∧ out * 1000 * reserveIn ≤ amountIn * 997 * reserveOut
    ∧ (amountIn = 0 → out = 0).
Proof.
  intros Hin Hout Ha.
  set (n := amountIn * 997 * reserveOut).
  set (d := reserveIn * 1000 + amountIn * 997).
  assert (Hn : 0 ≤ n) by (unfold n; apply Z.mul_nonneg_nonneg; lia).
  assert (Hd : 0 < d) by (unfold d; lia).
  exists (n `div` d). split; [apply getAmountOut_floor; lia|].
  pose proof (Z.mul_div_le n d Hd) as Hle.
  pose proof (Z.div_pos n d Hn Hd) as Hnonneg.
  assert (Hlt : n `div` d < reserveOut).
  { apply Z.div_lt_upper_bound; [done|]. unfold n, d. nia. }
  split; [lia|]. split; [unfold n, d in *; nia|].
  intros ->. unfold n. by rewrite !Z.mul_0_l, Z.div_0_l by lia.
Qed.

Lemma getAmountOut_bounded_witness :
  ∃ out,
    getAmountOut 1000 2000 100 = Ok out
    ∧ 0 ≤ out < 2000
    ∧ out * 1000 * 1000 ≤ 100 * 997 * 2000.
Proof.
  destruct (getAmountOut_bounded 1000 2000 100 ltac:(lia) ltac:(lia) ltac:(lia))
    as (out & Hout & Hrange & Hfee & _).
  by exists out.
Defined.

(** X2.  The forward quote is the largest output the pool's constant-product
    check accepts: with the input credited at 997/1000 the product of the
    reserves does not decrease when [out] is paid, and would decrease if
    [out + 1] were. *)
Theorem getAmountOut_keeps_product (reserveIn reserveOut amountIn : Z) :
  0 < reserveIn → 0 < reserveOut → 0 ≤ amountIn →
  ∃ out,
    getAmountOut reserveIn reserveOut amountIn = Ok out
    ∧ reserveIn * 1000 * reserveOut
      ≤ (reserveIn * 1000 + amountIn * 997) * (reserveOut - out)
    ∧ (reserveIn * 1000 + amountIn * 997) * (reserveOut - (out + 1))
      < reserveIn * 1000 * reserveOut.
Proof.
  intros Hin Hout Ha.
  set (n := amountIn * 997 * reserveOut).
  set (d := reserveIn * 1000 + amountIn * 997).
  assert (Hn : 0 ≤ n) by (unfold n; apply Z.mul_nonneg_nonneg; lia).
  assert (Hd : 0 < d) by (unfold d; lia).
  exists (n `div` d). split; [apply getAmountOut_floor; lia|].
  destruct (quot_is_floor n d Hn Hd) as [_ [Hle Hlt]].
  assert (Hsplit : d * reserveOut = reserveIn * 1000 * reserveOut + n)
    by (unfold d, n; ring).
  split; nia.
Qed.

Lemma getAmountOut_keeps_product_witness :
  ∃ out,
    getAmountOut 1000 2000 100 = Ok out
    ∧ 1000 * 1000 * 2000 ≤ (1000 * 1000 + 100 * 997) * (2000 - out)
    ∧ (1000 * 1000 + 100 * 997) * (2000 - (out + 1)) < 1000 * 1000 * 2000.
Proof.
  apply (getAmountOut_keeps_product 1000 2000 100); lia.
Defined.

(** X3.  The inverse quote is sufficient and tight: for a positive output
    below the output reserve, paying [getAmountIn] buys at least that
    output, and paying one unit less buys at most that output. *)
Theorem getAmountIn_suffices (reserveIn reserveOut amountOut : Z) :
  0 < reserveIn → 0 < amountOut → amountOut < reserveOut →
  ∃ amountIn out less,
    getAmountIn reserveIn reserveOut amountOut = Ok amountIn
    ∧ 0 < amountIn
    ∧ getAmountOut reserveIn reserveOut amountIn = Ok out
    ∧ amountOut ≤ out
    ∧ getAmountOut reserveIn reserveOut (amountIn - 1) = Ok less
    ∧ less ≤ amountOut.
Proof.
  intros Hin Ha Hlt.
  set (n := reserveIn * amountOut * 1000).
  set (d := (reserveOut - amountOut) * 997).
  assert (Hn : 0 ≤ n) by (unfold n; repeat apply Z.mul_nonneg_nonneg; lia).
  assert (Hd : 0 < d) by (unfold d; lia).
  destruct (quot_is_floor n d Hn Hd) as [_ [Hle Hgt]].
  pose proof (Z.div_pos n d Hn Hd) as Hq.
  set (q := n `div` d) in *.
  eexists (q + 1), _, _.
  split; [apply getAmountIn_floor; lia|].
  split; [lia|].
  split; [apply getAmountOut_floor; lia|].
  split.
  - apply Z.div_le_lower_bound; [lia|]. unfold n, d in *. nia.
  - replace (q + 1 - 1) with q by lia.
    split; [apply getAmountOut_floor; lia|].
    apply Z.div_le_upper_bound; [lia|]. unfold n, d in *. nia.
Qed.

Lemma getAmountIn_suffices_witness :
  ∃ amountIn out less,
    getAmountIn 1000 2000 181 = Ok amountIn
    ∧ 0 < amountIn
    ∧ getAmountOut 1000 2000 amountIn = Ok out
    ∧ 181 ≤ out
    ∧ getAmountOut 1000 2000 (amountIn - 1) = Ok less
    ∧ less ≤ 181.
Proof. apply (getAmountIn_suffices 1000 2000 181); lia. Defined.

(** X4.  Over non-negative input reserves and outputs below the output
    reserve, the inverse quote never decreases when more output is asked
    or the input reserve grows, and never increases when the output
    reserve grows. *)
Theorem getAmountIn_monotone (reserveIn reserveOut amountOut : Z) :
  0 ≤ reserveIn → 0 ≤ amountOut → amountOut < reserveOut →
  ∃ amountIn,
    getAmountIn reserveIn reserveOut amountOut = Ok amountIn
    ∧ (∀ amountOut', amountOut ≤ amountOut' → amountOut' < reserveOut →
         ∃ amountIn', getAmountIn reserveIn reserveOut amountOut' = Ok amountIn'
                      ∧ amountIn ≤ amountIn')
    ∧ (∀ reserveIn', reserveIn ≤ reserveIn' →
         ∃ amountIn', getAmountIn reserveIn' reserveOut amountOut = Ok amountIn'
                      ∧ amountIn ≤ amountIn')
    ∧ (∀ reserveOut', reserveOut ≤ reserveOut' →
         ∃ amountIn', getAmountIn reserveIn reserveOut' amountOut = Ok amountIn'
                      ∧ amountIn' ≤ amountIn).
Proof.
  intros Hin Ha Hlt. eexists. split; [apply getAmountIn_floor; lia|].
  split; [|split].
  - intros amountOut' Hle Hlt'. eexists.
    split; [apply getAmountIn_floor; lia|].
    apply Z.add_le_mono_r, div_le_cross; [lia | lia |].
    assert (Hcross : amountOut * (reserveOut - amountOut')
                     ≤ amountOut' * (reserveOut - amountOut)) by nia.
    apply (Z.mul_le_mono_nonneg_l _ _ (reserveIn * 1000 * 997)) in Hcross;
      lia.
  - intros reserveIn' Hle. eexists.
    split; [apply getAmountIn_floor; lia|].
    apply Z.add_le_mono_r, div_le_cross; [lia | lia |].
    apply Z.mul_le_mono_nonneg_r; [lia|].
    apply Z.mul_le_mono_nonneg_r; [lia|].
    apply Z.mul_le_mono_nonneg_r; lia.
  - intros reserveOut' Hle. eexists.
    split; [apply getAmountIn_floor; lia|].
    apply Z.add_le_mono_r, div_le_cross; [lia | lia |].
    apply Z.mul_le_mono_nonneg_l; [|lia].
    repeat apply Z.mul_nonneg_nonneg; lia.
Qed.

Lemma getAmountIn_monotone_witness :
  ∃ amountIn,
    getAmountIn 1000 2000 181 = Ok amountIn
    ∧ (∃ amountIn', getAmountIn 1000 2000 500 = Ok amountIn'
                    ∧ amountIn ≤ amountIn')
    ∧ (∃ amountIn', getAmountIn 1000 3000 181 = Ok amountIn'
                    ∧ amountIn' ≤ amountIn).
Proof.
  destruct (getAmountIn_monotone 1000 2000 181 ltac:(lia) ltac:(lia) ltac:(lia))
    as (amountIn & Hget & Hamount & _ & Hreserve).
  exists amountIn. split; [exact Hget|]. split.
  - apply (Hamount 500); lia.
  - apply (Hreserve 3000); lia.
Defined.

End ConstantProduct.

(** ** Reserves: construction, replacement, reads *)

Section ReserveStore.
Local Open Scope Z_scope.

Lemma setReservesViaMatchingArray_run (tokens : list string)
    (balances : list Z) (this : UniswappyV2EthPair) :
  setReservesViaMatchingArray tokens balances this
  = (Ok (),
     mkPair (_marketAddress this) (_tokens this) (_protocol this)
       (Lodash.zipObject tokens (JBigNumber <$> balances))).
Proof.
  unfold setReservesViaMatchingArray, mbind, Method_bind, read,
    assign_tokenBalances, Lodash.isEqual.
  case_bool_decide as Heq; simpl; [|done].
  destruct this as [address tokens' protocol current]. simpl in *.
  by rewrite Heq.
Qed.

Lemma baseZipObject_lookup_notin (props : list string) :
  ∀ (values : list jsval) (acc : gmap string jsval) (key : string),
    key ∉ props → Lodash.baseZipObject props values acc !! key = acc !! key.
Proof.
  induction props as [|p props IH]; intros values acc key Hkey; [done|].
  apply not_elem_of_cons in Hkey as [Hne Hkey]. simpl.
  rewrite IH by done. by rewrite lookup_insert_ne.
Qed.

Lemma baseZipObject_lookup (props : list string) :
  ∀ (values : list jsval) (acc : gmap string jsval) (i : nat) (key : string),
    NoDup props → props !! i = Some key →
    Lodash.baseZipObject props values acc !! key
    = Some (default JUndefined (values !! i)).
Proof.
  induction props as [|p props IH]; intros values acc i key Hnodup Hi;
    [done|].
  apply NoDup_cons in Hnodup as [Hp Hnodup].
  destruct i as [|i]; simpl in Hi.
  - injection Hi as ->. simpl.
    rewrite baseZipObject_lookup_notin by done.
    rewrite lookup_insert_eq. by destruct values.
  - simpl. rewrite (IH _ _ i key) by done. by destruct values.
Qed.

Lemma getBalance_run (this : UniswappyV2EthPair) (key : string) (v : jsval) :
  Js.get (_tokenBalances this) key = v →
  getBalance key this
  = (if bool_decide (v = JUndefined) then Throw BadToken else Ok v, this).
Proof.
  intros <-. unfold getBalance, mbind, Method_bind, read. cbv beta iota.
  by case_bool_decide.
Qed.

(** X5.  A market that has just been constructed on two distinct assets
    holds zero of both.  Until it is synchronised it quotes an output of 0
    for every non-zero input and an input of 1 for every non-zero output,
    and both quotes throw (division by zero) for an amount of zero. *)
Theorem fresh_market_quotes (marketAddress A B protocol : string) :
  A ≠ B →
  let this := new_UniswappyV2EthPair marketAddress [A; B] protocol in
  getBalance A this = (Ok (JBigNumber 0), this)
  ∧ getBalance B this = (Ok (JBigNumber 0), this)
  ∧ (∀ amountIn, amountIn ≠ 0 →
       getTokensOut A B amountIn this = (Ok 0, this))
  ∧ getTokensOut A B 0 this = (Throw DivisionByZero, this)
  ∧ (∀ amountOut, amountOut ≠ 0 →
       getTokensIn A B amountOut this = (Ok 1, this))
  ∧ getTokensIn A B 0 this = (Throw DivisionByZero, this).
Proof.
  intros distinct this.
  destruct (own_values A B distinct (JBigNumber 0) (JBigNumber 0))
    as [HgetA HgetB].
  change (<[B:=JBigNumber 0]> (<[A:=JBigNumber 0]> ∅))
    with (_tokenBalances this) in HgetA, HgetB.
  repeat split.
  - by rewrite (getBalance_run this A (JBigNumber 0)).
  - by rewrite (getBalance_run this B (JBigNumber 0)).
  - intros amountIn Hne.
    rewrite (getTokensOut_run this A B 0 0) by done.
    rewrite getAmountOut_unfold, div_nonzero by lia.
    by rewrite Z.mul_0_r, Z.quot_0_l by lia.
  - by rewrite (getTokensOut_run this A B 0 0) by done.
  - intros amountOut Hne.
    rewrite (getTokensIn_run this A B 0 0) by done.
    rewrite getAmountIn_unfold, div_nonzero by lia.
    by rewrite !Z.mul_0_l, Z.quot_0_l by lia.
  - by rewrite (getTokensIn_run this A B 0 0) by done.
Qed.

Lemma fresh_market_quotes_witness :
  getTokensOut "0xA" "0xB" 5 Sample.fresh = (Ok 0, Sample.fresh)
  ∧ getTokensIn "0xA" "0xB" 5 Sample.fresh = (Ok 1, Sample.fresh).
Proof.
  destruct (fresh_market_quotes "0xPool" "0xA" "0xB" "" ltac:(discriminate))
    as (_ & _ & Hout & _ & Hin & _).
  split; [apply Hout | apply Hin]; lia.
Defined.

(** X6.  [setReservesViaOrderedBalances] replaces both reserves at once: on
    a market of two distinct assets, the balances read back are the two
    passed, in the order of [tokens]; the address, the assets and the
    protocol are kept; entries after the second are ignored; setting the
    same pair again changes nothing; and a later call erases every trace of
    an earlier one. *)
Theorem setReserves_replaces (this : UniswappyV2EthPair) (A B : string)
    (a b : Z) :
  _tokens this = [A; B] → A ≠ B →
  let this' := (setReservesViaOrderedBalances [a; b] this).2 in
  getBalance A this' = (Ok (JBigNumber a), this')
  ∧ getBalance B this' = (Ok (JBigNumber b), this')
  ∧ _marketAddress this' = _marketAddress this
  ∧ _tokens this' = _tokens this
  ∧ _protocol this' = _protocol this
  ∧ (∀ surplus,
       setReservesViaOrderedBalances (a :: b :: surplus) this
       = setReservesViaOrderedBalances [a; b] this)
  ∧ setReservesViaOrderedBalances [a; b] this' = (Ok (), this')
  ∧ (∀ earlier,
       setReservesViaOrderedBalances [a; b]
         (setReservesViaOrderedBalances earlier this).2
       = setReservesViaOrderedBalances [a; b] this).
Proof.
  intros Htokens distinct this'.
  assert (Hthis' : this' = mkPair (_marketAddress this) [A; B] (_protocol this)
                             (<[B := JBigNumber b]> (<[A := JBigNumber a]> ∅))).
  { unfold this'. by rewrite setReservesViaOrderedBalances_run, Htokens. }
  destruct (own_values A B distinct (JBigNumber a) (JBigNumber b))
    as [HgetA HgetB].
  repeat split.
  - rewrite (getBalance_run this' A (JBigNumber a)); [done|]. by rewrite Hthis'.
  - rewrite (getBalance_run this' B (JBigNumber b)); [done|]. by rewrite Hthis'.
  - by rewrite Hthis'.
  - by rewrite Hthis'.
  - by rewrite Hthis'.
  - intros surplus. rewrite !setReservesViaOrderedBalances_run.
    by rewrite Htokens.
  - rewrite setReservesViaOrderedBalances_run. by rewrite Hthis'.
  - intros earlier. by rewrite !setReservesViaOrderedBalances_run.
Qed.

Lemma setReserves_replaces_witness :
  getBalance "0xA" (Sample.with_reserves 3 4)
  = (Ok (JBigNumber 3), Sample.with_reserves 3 4)
  ∧ getBalance "0xB" (Sample.with_reserves 3 4)
    = (Ok (JBigNumber 4), Sample.with_reserves 3 4).
Proof.
  destruct (setReserves_replaces Sample.fresh "0xA" "0xB" 3 4
              ltac:(reflexivity) ltac:(discriminate)) as (HA & HB & _).
  split; [exact HA | exact HB].
Defined.

(** X7.  [setReservesViaMatchingArray] takes its keys from the array it is
    given, not from the market's assets: afterwards the i-th name of the
    array (names distinct) reads back the i-th balance, or fails with "bad
    token" when there is no i-th balance; every other name that is not
    inherited fails with "bad token" and is no longer received directly,
    the market's own assets included; the assets themselves stay. *)
Theorem setReservesViaMatchingArray_rekeys (this : UniswappyV2EthPair)
    (tokens : list string) (balances : list Z) :
  NoDup tokens →
  let this' := (setReservesViaMatchingArray tokens balances this).2 in
  _tokens this' = _tokens this
  ∧ (∀ i key, tokens !! i = Some key →
       getBalance key this'
       = (match balances !! i with
          | Some n => Ok (JBigNumber n)
          | None => Throw BadToken
          end, this'))
  ∧ (∀ key, key ∉ tokens → Js.inherited key = false →
       getBalance key this' = (Throw BadToken, this')
       ∧ receiveDirectly key this' = (Ok false, this')).
Proof.
  intros Hnodup this'.
  assert (Hbalances : _tokenBalances this'
                      = Lodash.zipObject tokens (JBigNumber <$> balances)).
  { unfold this'. by rewrite setReservesViaMatchingArray_run. }
  split; [|split].
  - unfold this'. by rewrite setReservesViaMatchingArray_run.
  - intros i key Hi.
    rewrite (getBalance_run this' key
               (default JUndefined ((JBigNumber <$> balances) !! i))).
    + rewrite list_lookup_fmap. by destruct (balances !! i).
    + rewrite Hbalances. by apply get_own, baseZipObject_lookup.
  - intros key Hkey Hinherited.
    assert (Hlookup : _tokenBalances this' !! key = None).
    { rewrite Hbalances. unfold Lodash.zipObject.
      by rewrite baseZipObject_lookup_notin. }
    split.
    + rewrite (getBalance_run this' key JUndefined); [done|].
      unfold Js.get. by rewrite Hlookup, Hinherited.
    + unfold receiveDirectly, mbind, Method_bind, read, mret, Method_ret,
        Js.has_property.
      rewrite Hlookup, Hinherited.
      by rewrite bool_decide_eq_false_2 by by intros [? ?].
Qed.

Lemma setReservesViaMatchingArray_rekeys_witness :
  getBalance "0xC" (setReservesViaMatchingArray ["0xC"] [7] Sample.fresh).2
  = (Ok (JBigNumber 7),
     (setReservesViaMatchingArray ["0xC"] [7] Sample.fresh).2)
  ∧ getBalance "0xA" (setReservesViaMatchingArray ["0xC"] [7] Sample.fresh).2
    = (Throw BadToken,
       (setReservesViaMatchingArray ["0xC"] [7] Sample.fresh).2).
Proof.
  destruct (setReservesViaMatchingArray_rekeys Sample.fresh ["0xC"] [7])
    as (_ & Hnamed & Hother).
  { apply NoDup_singleton. }
  split.
  - apply (Hnamed 0%nat "0xC"). reflexivity.
  - apply (Hother "0xA"); [|reflexivity].
    intros Hin. apply list_elem_of_singleton in Hin. discriminate.
Defined.

End ReserveStore.

(** ** Receiving *)

Section Receiving.
Local Open Scope Z_scope.

(** X8.  On a market of two distinct assets whose reserves were only ever
    set with two balances or more, [prepareReceive] decides on the token
    first and on the amount second: a name that is neither an asset of the
    market nor inherited is refused whatever the amount; otherwise an
    amount that is not positive is refused; otherwise nothing needs
    preparing.  The market is never modified. *)
Theorem prepareReceive_outcome (marketAddress A B protocol : string) :
  A ≠ B →
  ∀ this,
    reachable (λ balances, (2 ≤ length balances)%nat)
      marketAddress A B protocol this →
    ∀ (tokenAddress : string) (amountIn : Z),
      prepareReceive tokenAddress amountIn this
      = (if bool_decide (tokenAddress = A ∨ tokenAddress = B)
            || Js.inherited tokenAddress
         then if bool_decide (0 < amountIn) then Ok []
              else Throw InvalidAmount
         else Throw MarketDoesNotOperateOnToken,
         this).
Proof.
  intros distinct this Hreach tokenAddress amountIn.
  destruct (reachable_shape marketAddress A B protocol _ this Hreach)
    as (_ & vA & vB & Hbalances & Hvalues).
  destruct Hvalues as (reserveA & reserveB & -> & ->); [done|].
  destruct (own_values A B distinct (JBigNumber reserveA)
              (JBigNumber reserveB)) as [HgetA HgetB].
  unfold prepareReceive, mbind, Method_bind, read. cbv beta iota.
  rewrite Hbalances. unfold BigNumber.gt.
  destruct (decide (tokenAddress = A)) as [->|HneA].
  - rewrite HgetA, bool_decide_eq_false_2 by done.
    rewrite (bool_decide_eq_true_2 (A = A ∨ A = B)) by by left.
    simpl. by case_bool_decide.
  - destruct (decide (tokenAddress = B)) as [->|HneB].
    + rewrite HgetB, bool_decide_eq_false_2 by done.
      rewrite (bool_decide_eq_true_2 (B = A ∨ B = B)) by by right.
      simpl. by case_bool_decide.
    + rewrite (bool_decide_eq_false_2 (tokenAddress = A ∨ tokenAddress = B))
        by by intros [?|?].
      unfold Js.get.
      rewrite !lookup_insert_ne, lookup_empty by done.
      simpl. destruct (Js.inherited tokenAddress); simpl; [|done].
      by case_bool_decide.
Qed.

Lemma prepareReceive_outcome_witness :
  prepareReceive "0xA" 5 (Sample.with_reserves 3 4)
  = (Ok [], Sample.with_reserves 3 4)
  ∧ prepareReceive "0xC" 0 (Sample.with_reserves 3 4)
    = (Throw MarketDoesNotOperateOnToken, Sample.with_reserves 3 4)
  ∧ prepareReceive "0xB" 0 (Sample.with_reserves 3 4)
    = (Throw InvalidAmount, Sample.with_reserves 3 4).
Proof.
  pose proof (prepareReceive_outcome "0xPool" "0xA" "0xB" ""
                ltac:(discriminate) (Sample.with_reserves 3 4)) as Hprepare.
  assert (Hreach : reachable (λ balances, (2 ≤ length balances)%nat)
                     "0xPool" "0xA" "0xB" "" (Sample.with_reserves 3 4)).
  { apply reachable_set; [apply reachable_new | simpl; lia]. }
  split; [|split].
  - exact (Hprepare Hreach "0xA" 5).
  - exact (Hprepare Hreach "0xC" 0).
  - exact (Hprepare Hreach "0xB" 0).
Defined.

End Receiving.

(** ** Synchronisation, continued *)

Section Synchronised.

Lemma synchronised_idempotent (marketPair : UniswappyV2EthPair)
    (reserve : Z * Z) :
  synchronised (synchronised marketPair reserve) reserve
  = synchronised marketPair reserve.
Proof.
  unfold synchronised. by rewrite !setReservesViaOrderedBalances_run.
Qed.

Lemma synchronised_identity (marketPair : UniswappyV2EthPair)
    (reserve : Z * Z) :
  _marketAddress (synchronised marketPair reserve) = _marketAddress marketPair
  ∧ _tokens (synchronised marketPair reserve) = _tokens marketPair
  ∧ _protocol (synchronised marketPair reserve) = _protocol marketPair.
Proof. unfold synchronised. by rewrite setReservesViaOrderedBalances_run. Qed.

Lemma synchronised_prefix_fields {X} (field : UniswappyV2EthPair → X) :
  (∀ m r, field (synchronised m r) = field m) →
  ∀ (ms : list UniswappyV2EthPair) (rs : list (Z * Z)),
    map field (zip_with synchronised ms rs ++ drop (length rs) ms)
    = map field ms.
Proof.
  intros Hfield. induction ms as [|m ms IH]; intros [|r rs]; try done.
  simpl. by rewrite Hfield, IH.
Qed.

Lemma synchronised_prefix_idempotent :
  ∀ (ms : list UniswappyV2EthPair) (rs : list (Z * Z)),
    zip_with synchronised (zip_with synchronised ms rs ++ drop (length rs) ms)
      rs
    ++ drop (length rs) (zip_with synchronised ms rs ++ drop (length rs) ms)
    = zip_with synchronised ms rs ++ drop (length rs) ms.
Proof.
  induction ms as [|m ms IH]; intros [|r rs]; try done.
  simpl. by rewrite synchronised_idempotent, IH.
Qed.

Lemma updateReserves_fields (provider : JsonRpcProvider)
    (allMarketPairs : list UniswappyV2EthPair) :
  length (updateReserves provider allMarketPairs).2 = length allMarketPairs
  ∧ map _marketAddress (updateReserves provider allMarketPairs).2
    = map _marketAddress allMarketPairs
  ∧ map _tokens (updateReserves provider allMarketPairs).2
    = map _tokens allMarketPairs
  ∧ map _protocol (updateReserves provider allMarketPairs).2
    = map _protocol allMarketPairs.
Proof.
  rewrite updateReserves_run. cbv zeta. simpl.
  set (reserves := getReservesByPairs provider
                     (map _marketAddress allMarketPairs)).
  assert (Haddress : map _marketAddress
                       (zip_with synchronised allMarketPairs reserves
                        ++ drop (length reserves) allMarketPairs)
                     = map _marketAddress allMarketPairs).
  { apply synchronised_prefix_fields. intros m r.
    apply (synchronised_identity m r). }
  split; [|split; [done|split]].
  - apply (f_equal length) in Haddress. by rewrite !length_map in Haddress.
  - apply synchronised_prefix_fields. intros m r.
    apply (synchronised_identity m r).
  - apply synchronised_prefix_fields. intros m r.
    apply (synchronised_identity m r).
Qed.

(** X9.  Whether it returns or throws, [updateReserves] leaves as many
    markets as it was given, in the same order, each with the address, the
    assets and the protocol it had: only reserves change. *)
Theorem updateReserves_keeps_identity (provider : JsonRpcProvider)
    (allMarketPairs : list UniswappyV2EthPair) :
  length (updateReserves provider allMarketPairs).2 = length allMarketPairs
  ∧ map _marketAddress (updateReserves provider allMarketPairs).2
    = map _marketAddress allMarketPairs
  ∧ map _tokens (updateReserves provider allMarketPairs).2
    = map _tokens allMarketPairs
  ∧ map _protocol (updateReserves provider allMarketPairs).2
    = map _protocol allMarketPairs.
Proof. apply updateReserves_fields. Qed.

(** X10.  Synchronising again against a node that answers the same leaves
    every market as the first synchronisation left it, with the same
    outcome: a synchronisation depends on the addresses and on the answer,
    never on the reserves held before. *)
Theorem updateReserves_idempotent (provider : JsonRpcProvider)
    (allMarketPairs : list UniswappyV2EthPair) :
  updateReserves provider (updateReserves provider allMarketPairs).2
  = updateReserves provider allMarketPairs.
Proof.
  destruct (updateReserves_fields provider allMarketPairs)
    as (Hlength & Haddress & _).
  rewrite (updateReserves_run provider
             (updateReserves provider allMarketPairs).2).
  cbv zeta. rewrite Haddress, Hlength.
  rewrite (updateReserves_run provider allMarketPairs). cbv zeta. simpl.
  by rewrite synchronised_prefix_idempotent.
Qed.

(** The reserves a synchronised market of two distinct assets reads back. *)
Lemma synchronised_reads (marketPair : UniswappyV2EthPair) (reserve : Z * Z)
    (t0 t1 : string) :
  _tokens marketPair = [t0; t1] → t0 ≠ t1 →
  getBalance t0 (synchronised marketPair reserve)
  = (Ok (JBigNumber reserve.1), synchronised marketPair reserve)
  ∧ getBalance t1 (synchronised marketPair reserve)
    = (Ok (JBigNumber reserve.2), synchronised marketPair reserve).
Proof.
  intros Htokens distinct.
  destruct (own_values t0 t1 distinct (JBigNumber reserve.1)
              (JBigNumber reserve.2)) as [Hget0 Hget1].
  assert (Hbalances : _tokenBalances (synchronised marketPair reserve)
                      = <[t1 := JBigNumber reserve.2]>
                          (<[t0 := JBigNumber reserve.1]> ∅)).
  { unfold synchronised.
    by rewrite setReservesViaOrderedBalances_run, Htokens. }
  split.
  - rewrite (getBalance_run _ t0 (JBigNumber reserve.1)); [done|].
    by rewrite Hbalances.
  - rewrite (getBalance_run _ t1 (JBigNumber reserve.2)); [done|].
    by rewrite Hbalances.
Qed.

(** X11.  Reserves reach the market they were answered for: if the
    response has an i-th entry, then after [updateReserves] (even when it
    throws further on) the i-th market, of two distinct assets, still has
    its address and reads back the entry's first reserve for its first
    asset and the second for its second. *)
Theorem updateReserves_reads_back (provider : JsonRpcProvider)
    (allMarketPairs : list UniswappyV2EthPair) (i : nat)
    (marketPair : UniswappyV2EthPair) (reserve : Z * Z) (t0 t1 : string) :
  allMarketPairs !! i = Some marketPair →
  getReservesByPairs provider (map _marketAddress allMarketPairs) !! i
  = Some reserve →
  _tokens marketPair = [t0; t1] → t0 ≠ t1 →
  ∃ updated,
    (updateReserves provider allMarketPairs).2 !! i = Some updated
    ∧ _marketAddress updated = _marketAddress marketPair
    ∧ getBalance t0 updated = (Ok (JBigNumber reserve.1), updated)
    ∧ getBalance t1 updated = (Ok (JBigNumber reserve.2), updated).
Proof.
  intros Hmarket Hreserve Htokens distinct.
  exists (synchronised marketPair reserve).
  destruct (synchronised_reads marketPair reserve t0 t1 Htokens distinct)
    as [Hread0 Hread1].
  split; [|split; [apply synchronised_identity | by split]].
  rewrite updateReserves_run. cbv zeta. simpl.
  rewrite lookup_app_l.
  - rewrite lookup_zip_with, Hmarket. simpl. by rewrite Hreserve.
  - rewrite length_zip_with.
    apply lookup_lt_Some in Hmarket. apply lookup_lt_Some in Hreserve. lia.
Qed.

Lemma updateReserves_reads_back_witness :
  ∃ updated,
    (updateReserves (Sample.node [] [(1, 2)]%Z)
       [Sample.poolA; Sample.poolB]).2 !! 0%nat = Some updated
    ∧ getBalance "0xWETH" updated = (Ok (JBigNumber 1), updated)
    ∧ getBalance "0xA" updated = (Ok (JBigNumber 2), updated).
Proof.
  destruct (updateReserves_reads_back (Sample.node [] [(1, 2)]%Z)
              [Sample.poolA; Sample.poolB] 0 Sample.poolA (1, 2)%Z
              "0xWETH" "0xA")
    as (updated & Hupdated & _ & Hread0 & Hread1);
    [reflexivity | reflexivity | reflexivity | discriminate |].
  by exists updated.
Defined.

End Synchronised.

(** ** Discovery, continued *)

Section Listing.
Context `{Addresses}.

Lemma collectPairs_listed (pairs : list (string * string * string)) :
  ∀ marketPairs : list UniswappyV2EthPair,
    collectPairs pairs marketPairs
    = marketPairs ++ (marketOf <$> filter listed pairs).
Proof.
  induction pairs as [|pair pairs IH]; intros marketPairs.
  - by rewrite filter_nil, app_nil_r.
  - rewrite filter_cons.
    change (collectPairs (pair :: pairs) marketPairs)
      with (match tokenAddressOf pair with
            | None => collectPairs pairs marketPairs
            | Some tokenAddress =>
                if negb (includes blacklistTokens tokenAddress)
                then collectPairs pairs (marketPairs ++ [marketOf pair])
                else collectPairs pairs marketPairs
            end).
    destruct (decide (listed pair)) as [(t & Ht & Hout)|Hnot].
    + rewrite Ht. unfold includes. rewrite bool_decide_eq_false_2 by done.
      simpl. by rewrite IH, <- app_assoc.
    + destruct (tokenAddressOf pair) as [t|] eqn:Ht; [|apply IH].
      unfold includes. rewrite bool_decide_eq_true_2; [apply IH|].
      destruct (decide (t ∈ blacklistTokens)) as [Hin|Hout]; [done|].
      exfalso. apply Hnot. by exists t.
Qed.

Lemma collectBatch_listed (size : nat) (provider : JsonRpcProvider)
    (factoryAddress : string) (ks : list nat) :
  ∀ marketPairs : list UniswappyV2EthPair,
    fold_left (collectBatch size provider factoryAddress) ks marketPairs
    = marketPairs
      ++ (marketOf <$> filter listed
            (concat (batch size provider factoryAddress <$> ks))).
Proof.
  induction ks as [|k ks IH]; intros marketPairs; simpl.
  - by rewrite app_nil_r.
  - rewrite IH. unfold collectBatch. rewrite collectPairs_listed.
    by rewrite filter_app, fmap_app, app_assoc.
Qed.


End Listing.

(** ** The grouped result *)

Section GroupsPartition.
Context {A : Type} (f : A → string).

Lemma push_group_flatten (key : string) (v : A) (g : list (string * list A)) :
  concat (map snd (Lodash.push_group key v g)) ≡ₚ concat (map snd g) ++ [v].
Proof.
  induction g as [|[k vs] g IH]; [done|].
  simpl. case_bool_decide; simpl.
  - rewrite <- !app_assoc. apply Permutation_app_head, Permutation_app_comm.
  - rewrite IH. by rewrite app_assoc.
Qed.

(** Grouping loses nothing and duplicates nothing. *)
Lemma groupBy_flatten (l : list A) :
  Lodash.flatten (Lodash.values (Lodash.groupBy f l)) ≡ₚ l.
Proof.
  unfold Lodash.flatten, Lodash.values.
  induction l as [|v l IH] using rev_ind; [done|].
  by rewrite groupBy_snoc, push_group_flatten, IH.
Qed.

Lemma length_filter_key (k : string) (l : list A) :
  length (filter (λ u, f u = k) l) = length (filter (λ x, x = k) (map f l)).
Proof.
  induction l as [|u l IH]; [done|].
  simpl. rewrite !filter_cons. repeat case_decide; simpl; congruence.
Qed.

End GroupsPartition.

Section Grouped.
Context `{Addresses}.

Lemma marketOf_listed (pair : string * string * string) :
  listed pair →
  ∃ t0 t1,
    _tokens (marketOf pair) = [t0; t1]
    ∧ (t0 = WETH_ADDRESS ∨ t1 = WETH_ADDRESS)
    ∧ nonQuoteToken (marketOf pair) ∉ blacklistTokens.
Proof.
  intros (t & Ht & Hout). exists pair.1.1, pair.1.2.
  unfold tokenAddressOf in Ht. unfold nonQuoteToken. simpl.
  repeat case_bool_decide; simplify_eq; simpl; try congruence.
  - split; [done|]. split; [by left | done].
  - split; [done|]. split; [by right | done].
Qed.

Lemma getUniswappyMarkets_records (provider : JsonRpcProvider)
    (factoryAddress : string) :
  ∃ records,
    getUniswappyMarkets provider factoryAddress
    = Some (marketOf <$> filter listed records).
Proof.
  destruct (discover_spec BATCH_COUNT_LIMIT UNISWAP_BATCH_SIZE provider
              factoryAddress) as (n & d & Hrun & _ & Hmarkets & _).
  { unfold UNISWAP_BATCH_SIZE. lia. }
  eexists. unfold getUniswappyMarkets. rewrite Hrun. simpl.
  by rewrite Hmarkets, collectBatch_listed.
Qed.

Lemma discovery_records (provider : JsonRpcProvider)
    (factoryAddresses : list string) :
  ∃ allPairs records,
    mapM (getUniswappyMarkets provider) factoryAddresses = Some allPairs
    ∧ Lodash.flatten allPairs = marketOf <$> filter listed records.
Proof.
  induction factoryAddresses
    as [|factoryAddress rest (allPairs & records & Hrun & Hflat)].
  - by exists [], [].
  - destruct (getUniswappyMarkets_records provider factoryAddress)
      as (first & Hfirst).
    exists ((marketOf <$> filter listed first) :: allPairs), (first ++ records).
    split.
    + apply mapM_Some. constructor; [done | by apply mapM_Some].
    + unfold Lodash.flatten in *. simpl.
      by rewrite Hflat, filter_app, fmap_app.
Qed.

Lemma discovered_market (records : list (string * string * string))
    (m : UniswappyV2EthPair) :
  m ∈ marketOf <$> filter listed records →
  ∃ t0 t1,
    _tokens m = [t0; t1]
    ∧ (t0 = WETH_ADDRESS ∨ t1 = WETH_ADDRESS)
    ∧ nonQuoteToken m ∉ blacklistTokens.
Proof.
  intros (pair & -> & [Hlisted _]%list_elem_of_filter)%list_elem_of_fmap.
  by apply marketOf_listed.
Qed.

Lemma nonQuoteToken_synchronised (marketPair : UniswappyV2EthPair)
    (reserve : Z * Z) :
  nonQuoteToken (synchronised marketPair reserve) = nonQuoteToken marketPair.
Proof.
  unfold nonQuoteToken.
  by destruct (synchronised_identity marketPair reserve) as (_ & -> & _).
Qed.

(** What [getUniswapMarketsByToken] comes to: discovery always completes,
    and the outcome turns on the length of the reserve response alone. *)
Lemma getUniswapMarketsByToken_run (provider : JsonRpcProvider)
    (factoryAddresses : list string) :
  ∃ allPairs records,
    mapM (getUniswappyMarkets provider) factoryAddresses = Some allPairs
    ∧ Lodash.flatten allPairs = marketOf <$> filter listed records
    ∧ getUniswapMarketsByToken provider factoryAddresses
      = Some
          (let candidates := groupCandidates allPairs in
           let reserves :=
             getReservesByPairs provider (map _marketAddress candidates) in
           let synced := zip_with synchronised candidates reserves in
           if decide (length candidates ≤ length reserves)
           then Ok (mkGrouped
                      (Lodash.groupBy nonQuoteToken (filter liquid synced))
                      synced)
           else Throw UndefinedReserve).
Proof.
  destruct (discovery_records provider factoryAddresses)
    as (allPairs & records & Hrun & Hflat).
  exists allPairs, records. split; [done|]. split; [done|].
  unfold getUniswapMarketsByToken. rewrite Hrun. simpl.
  rewrite updateReserves_run. cbv zeta.
  set (candidates := groupCandidates allPairs).
  set (reserves := getReservesByPairs provider
                     (map _marketAddress candidates)).
  destruct (decide (length candidates ≤ length reserves)) as [Hle|Hgt];
    [|done].
  rewrite drop_ge, app_nil_r by done. simpl.
  unfold groupLiquid. rewrite filter_pairs_liquid; [done|].
  apply Forall_forall.
  intros m (candidate & reserve & -> & Hcandidate & _)%elem_of_zip_with.
  apply groupCandidates_elem_of in Hcandidate. rewrite Hflat in Hcandidate.
  destruct (discovered_market records candidate Hcandidate)
    as (t0 & t1 & Ht & Hquote & _).
  by rewrite (synchronised_quoteReserve candidate reserve t0 t1 Ht Hquote).
Qed.

End Grouped.

Section Index.
Context `{Addresses}.

(** X13.  When [getUniswapMarketsByToken] returns, its index partitions the
    markets it returns that hold more than [ETHER] of the quote asset: the
    keys are distinct and never a blacklisted token, no group is empty,
    each group is exactly the liquid markets with that non-quote asset, in
    the order of [allMarketPairs], and the groups together hold every
    liquid market once. *)
Theorem index_partitions_liquid (provider : JsonRpcProvider)
    (factoryAddresses : list string) (grouped : GroupedMarkets) :
  getUniswapMarketsByToken provider factoryAddresses = Some (Ok grouped) →
  NoDup (marketsByToken grouped).*1
  ∧ Lodash.flatten (Lodash.values (marketsByToken grouped))
    ≡ₚ filter liquid (allMarketPairs grouped)
  ∧ ∀ token group,
      (token, group) ∈ marketsByToken grouped →
      group ≠ []
      ∧ (token ∉ blacklistTokens)
      ∧ group = filter (λ m, nonQuoteToken m = token)
                  (filter liquid (allMarketPairs grouped)).
Proof.
  destruct (getUniswapMarketsByToken_run provider factoryAddresses)
    as (allPairs & records & _ & Hflat & ->).
  cbv zeta. case_decide as Hlength; [|done]. intros [= <-]. simpl.
  set (synced := zip_with synchronised (groupCandidates allPairs) _).
  destruct (groupBy_groups nonQuoteToken (filter liquid synced))
    as (Hnodup & Hgroups & _).
  pose proof (groupBy_nonempty nonQuoteToken (filter liquid synced))
    as Hnonempty.
  rewrite Forall_forall in Hgroups. rewrite Forall_forall in Hnonempty.
  split; [done|]. split; [apply groupBy_flatten|].
  intros token group Hin.
  pose proof (Hgroups _ Hin) as Hgroup. pose proof (Hnonempty _ Hin) as Hne.
  simpl in Hgroup, Hne. split; [done|]. split; [|done].
  destruct group as [|m group]; [done|].
  assert (Hm : m ∈ filter (λ m, nonQuoteToken m = token)
                      (filter liquid synced)).
  { rewrite <- Hgroup. apply list_elem_of_here. }
  apply list_elem_of_filter in Hm as [Hkey Hm].
  apply list_elem_of_filter in Hm as [_ Hm].
  apply elem_of_zip_with in Hm
    as (candidate & reserve & -> & Hcandidate & _).
  apply groupCandidates_elem_of in Hcandidate. rewrite Hflat in Hcandidate.
  destruct (discovered_market records candidate Hcandidate)
    as (_ & _ & _ & _ & Hout).
  by rewrite <- Hkey, nonQuoteToken_synchronised.
Qed.

(** X14.  When [getUniswapMarketsByToken] returns, every market of
    [allMarketPairs], liquid or not, has two assets, one of them the quote
    asset, holds a reserve of the quote asset, is not of a blacklisted
    token, and shares its non-quote asset with at least one other market
    of [allMarketPairs]. *)
Theorem allMarketPairs_have_siblings (provider : JsonRpcProvider)
    (factoryAddresses : list string) (grouped : GroupedMarkets) :
  getUniswapMarketsByToken provider factoryAddresses = Some (Ok grouped) →
  ∀ m, m ∈ allMarketPairs grouped →
    (∃ t0 t1, _tokens m = [t0; t1]
              ∧ (t0 = WETH_ADDRESS ∨ t1 = WETH_ADDRESS))
    ∧ is_Some (quoteReserve m)
    ∧ (nonQuoteToken m ∉ blacklistTokens)
    ∧ 2 ≤ length (filter (λ m', nonQuoteToken m' = nonQuoteToken m)
                    (allMarketPairs grouped)).
Proof.
  destruct (getUniswapMarketsByToken_run provider factoryAddresses)
    as (allPairs & records & _ & Hflat & ->).
  cbv zeta. case_decide as Hlength; [|done]. intros [= <-]. simpl.
  set (candidates := groupCandidates allPairs) in *.
  set (reserves := getReservesByPairs provider _) in *.
  intros m (candidate & reserve & -> & Hcandidate & _)%elem_of_zip_with.
  pose proof Hcandidate as Hdiscovered.
  apply groupCandidates_elem_of in Hdiscovered. rewrite Hflat in Hdiscovered.
  destruct (discovered_market records candidate Hdiscovered)
    as (t0 & t1 & Ht & Hquote & Hout).
  destruct (synchronised_identity candidate reserve) as (_ & Htokens & _).
  split; [exists t0, t1; by rewrite Htokens|].
  split.
  { by rewrite (synchronised_quoteReserve candidate reserve t0 t1 Ht Hquote). }
  rewrite nonQuoteToken_synchronised. split; [done|].
  rewrite length_filter_key.
  pose proof (synchronised_prefix_fields nonQuoteToken
                nonQuoteToken_synchronised candidates reserves) as Hkeys.
  rewrite drop_ge, app_nil_r in Hkeys by done.
  rewrite Hkeys, <- length_filter_key.
  assert (Hgroup : candidate
                   ∈ filter (λ m', nonQuoteToken m' = nonQuoteToken candidate)
                       candidates).
  { by apply list_elem_of_filter. }
  unfold candidates in *. rewrite groupCandidates_filter in Hgroup |- *.
  case_decide; [lia | by apply elem_of_nil in Hgroup].
Qed.


End Index.

Lemma index_partitions_liquid_witness :
  [("0xY", [synchronised Sample.poolY1 (ETHER + 1, 5)%Z;
            synchronised Sample.poolY3 (2 * ETHER, 9)%Z])].*1 = ["0xY"]
  ∧ [synchronised Sample.poolY1 (ETHER + 1, 5)%Z;
     synchronised Sample.poolY3 (2 * ETHER, 9)%Z]
    = filter (λ m, @nonQuoteToken Sample.addresses m = "0xY")
        (filter (@liquid Sample.addresses)
           (zip_with synchronised
              [Sample.poolY1; Sample.poolY2; Sample.poolY3]
              Sample.mixedReserves)).
Proof.
  destruct (@index_partitions_liquid Sample.addresses
              (Sample.node Sample.registryXY Sample.mixedReserves)
              ["0xFactory"]
              (mkGrouped
                 [("0xY", [synchronised Sample.poolY1 (ETHER + 1, 5)%Z;
                           synchronised Sample.poolY3 (2 * ETHER, 9)%Z])]
                 (zip_with synchronised
                    [Sample.poolY1; Sample.poolY2; Sample.poolY3]
                    Sample.mixedReserves)))
    as (_ & _ & Hgroups); [by vm_compute|].
  split; [reflexivity|].
  apply (Hgroups "0xY"). simpl. apply list_elem_of_here.
Defined.

Lemma allMarketPairs_have_siblings_witness :
  (2 ≤ length
         (filter (λ m', @nonQuoteToken Sample.addresses m'
                        = @nonQuoteToken Sample.addresses
                            (synchronised Sample.poolY2 (7, ETHER)%Z))
            (zip_with synchronised
               [Sample.poolY1; Sample.poolY2; Sample.poolY3]
               Sample.mixedReserves)))%nat.
Proof.
  apply (@allMarketPairs_have_siblings Sample.addresses
           (Sample.node Sample.registryXY Sample.mixedReserves)
           ["0xFactory"]
           (mkGrouped
              [("0xY", [synchronised Sample.poolY1 (ETHER + 1, 5)%Z;
                        synchronised Sample.poolY3 (2 * ETHER, 9)%Z])]
              (zip_with synchronised
                 [Sample.poolY1; Sample.poolY2; Sample.poolY3]
                 Sample.mixedReserves))
           ltac:(by vm_compute)
           (synchronised Sample.poolY2 (7, ETHER)%Z)).
  simpl. apply list_elem_of_further, list_elem_of_here.
Defined.


(** ** Selling to the next market *)

Section NextMarket.
Context `{Encoder}.
Local Open Scope Z_scope.

Lemma sellTokensToNextMarket_run (tokenIn : string) (amountIn : Z)
    (ethMarket this : UniswappyV2EthPair) :
  sellTokensToNextMarket tokenIn amountIn ethMarket this
  = ((exchangeCall ←
        (sellTokens tokenIn amountIn (_marketAddress ethMarket) this).1;
      Ok (mkCalls [exchangeCall] [_marketAddress this])), this).
Proof.
  pose proof (sellTokens_pure tokenIn amountIn (_marketAddress ethMarket) this)
    as Hpure.
  unfold sellTokensToNextMarket.
  destruct (receiveDirectly tokenIn ethMarket).1 as [[|]|];
    unfold mbind at 1, Method_bind at 1;
    destruct (sellTokens tokenIn amountIn (_marketAddress ethMarket) this)
      as [[exchangeCall|failure] this'];
    simpl in Hpure; by subst this'.
Qed.

(** X16.  [sellTokensToNextMarket] issues the same single call whether or
    not the next market receives the token directly: the [sellTokens]
    calldata with the next market's address as recipient, targeted at this
    market; an error of [sellTokens] is passed on; neither market is
    modified.  On a market of two distinct assets with non-negative
    reserves, selling the first asset encodes a swap of zero of the first
    asset and the forward quote of the second, paid to the next market. *)
Theorem sellTokensToNextMarket_call (tokenIn : string) (amountIn : Z)
    (ethMarket this : UniswappyV2EthPair) :
  sellTokensToNextMarket tokenIn amountIn ethMarket this
  = ((exchangeCall ←
        (sellTokens tokenIn amountIn (_marketAddress ethMarket) this).1;
      Ok (mkCalls [exchangeCall] [_marketAddress this])), this)
  ∧ ∀ (B : string) (reserveA reserveB : Z) (encoded : string),
      _tokens this = [tokenIn; B] →
      Js.get (_tokenBalances this) tokenIn = JBigNumber reserveA →
      Js.get (_tokenBalances this) B = JBigNumber reserveB →
      0 ≤ reserveA → 0 ≤ reserveB → 0 ≤ amountIn →
      0 < reserveA ∨ 0 < amountIn →
      populateTransaction_swap
        (mkSwap 0
           ((amountIn * 997 * reserveB)
              `div` (reserveA * 1000 + amountIn * 997))
           (_marketAddress ethMarket) [])
      = Ok (Some encoded) →
      sellTokensToNextMarket tokenIn amountIn ethMarket this
      = (Ok (mkCalls [encoded] [_marketAddress this]), this).
Proof.
  split; [apply sellTokensToNextMarket_run|].
  intros B reserveA reserveB encoded Htokens HA HB HrA HrB Ha Hpos Hencoded.
  rewrite sellTokensToNextMarket_run.
  unfold sellTokens, mbind at 2, Method_bind at 1.
  rewrite (swapArguments_first this tokenIn B) by done.
  rewrite (getTokensOut_run this tokenIn B reserveA reserveB) by done.
  simpl. rewrite getAmountOut_floor by done. simpl.
  unfold mbind at 2, Method_bind at 1, lift.
  change (BigNumber.from 0) with 0. by rewrite Hencoded.
Qed.

End NextMarket.

Lemma sellTokensToNextMarket_call_witness :
  @sellTokensToNextMarket Sample.encoder "0xA" 1000 Sample.poolA
    (Sample.with_reserves 1000000 1000000)
  = (Ok (mkCalls ["0x022c0d9f"] ["0xPool"]),
     Sample.with_reserves 1000000 1000000).
Proof.
  destruct (@sellTokensToNextMarket_call Sample.encoder "0xA" 1000
              Sample.poolA (Sample.with_reserves 1000000 1000000))
    as [_ Hcall].
  apply (Hcall "0xB" 1000000%Z 1000000%Z "0x022c0d9f");
    try reflexivity; lia.
Defined.

(** ** Quotes on assets the market does not hold *)

Section ForeignAssets.

Lemma foreign_asset_not_a_number (A B : string) (vA vB : jsval)
    (token : string) :
  token ≠ A → token ≠ B →
  Js.as_BigNumber (Js.get (<[B := vB]> (<[A := vA]> ∅)) token)
  = Throw NotABigNumber.
Proof.
  intros HA HB. unfold Js.get.
  rewrite !lookup_insert_ne, lookup_empty by done.
  by destruct (Js.inherited token).
Qed.

(** X17.  On a market of two distinct assets whose reserves were only ever
    set with two balances or more, [getTokensOut] and [getTokensIn] fail,
    before any arithmetic and without touching the market, as soon as one
    of the two tokens named is not an asset of the market (inherited names
    included); nothing else is checked: naming the same asset on both
    sides is quoted against that asset's reserve twice. *)
Theorem quotes_on_foreign_assets (marketAddress A B protocol : string) :
  A ≠ B →
  ∀ this,
    reachable (λ balances, 2 ≤ length balances)
      marketAddress A B protocol this →
    (∀ tokenIn tokenOut amount,
       (tokenIn ≠ A ∧ tokenIn ≠ B) ∨ (tokenOut ≠ A ∧ tokenOut ≠ B) →
       getTokensOut tokenIn tokenOut amount this = (Throw NotABigNumber, this)
       ∧ getTokensIn tokenIn tokenOut amount this
         = (Throw NotABigNumber, this))
    ∧ ∃ reserveA,
        getBalance A this = (Ok (JBigNumber reserveA), this)
        ∧ ∀ amount,
            getTokensOut A A amount this
            = (getAmountOut reserveA reserveA amount, this)
            ∧ getTokensIn A A amount this
              = (getAmountIn reserveA reserveA amount, this).
Proof.
  intros distinct this Hreach.
  destruct (reachable_shape marketAddress A B protocol _ this Hreach)
    as (_ & vA & vB & Hbalances & Hvalues).
  destruct Hvalues as (reserveA & reserveB & -> & ->); [done|].
  destruct (own_values A B distinct (JBigNumber reserveA)
              (JBigNumber reserveB)) as [HgetA HgetB].
  split.
  - intros tokenIn tokenOut amount Hforeign.
    unfold getTokensOut, getTokensIn, mbind at 1 4, Method_bind, read, lift.
    cbv beta iota. rewrite Hbalances.
    destruct Hforeign as [[HA HB]|[HA HB]].
    + by rewrite (foreign_asset_not_a_number A B _ _ tokenIn HA HB).
    + rewrite (foreign_asset_not_a_number A B _ _ tokenOut HA HB).
      destruct (Js.as_BigNumber
                  (Js.get (<[B:=JBigNumber reserveB]>
                             (<[A:=JBigNumber reserveA]> ∅)) tokenIn))
        as [reserveIn|failure] eqn:HtokenIn; [by split|].
      destruct (Js.get (<[B:=JBigNumber reserveB]>
                          (<[A:=JBigNumber reserveA]> ∅)) tokenIn);
        simpl in HtokenIn; by simplify_eq.
  - exists reserveA. rewrite <- Hbalances in HgetA. split.
    + by rewrite (getBalance_run this A (JBigNumber reserveA)).
    + intros amount. split.
      * by apply getTokensOut_run.
      * by apply getTokensIn_run.
Qed.

Lemma quotes_on_foreign_assets_witness :
  getTokensOut "0xA" "0xC" 5 (Sample.with_reserves 3 4)
  = (Throw NotABigNumber, Sample.with_reserves 3 4)
  ∧ getTokensIn "toString" "0xA" 5 (Sample.with_reserves 3 4)
    = (Throw NotABigNumber, Sample.with_reserves 3 4).
Proof.
  destruct (quotes_on_foreign_assets "0xPool" "0xA" "0xB" ""
              ltac:(discriminate) (Sample.with_reserves 3 4))
    as [Hforeign _].
  { apply reachable_set; [apply reachable_new | simpl; lia]. }
  split.
  - apply (Hforeign "0xA" "0xC" 5%Z). right. split; discriminate.
  - apply (Hforeign "toString" "0xA" 5%Z). left. split; discriminate.
Defined.

End ForeignAssets.

(** ** What a synchronisation writes *)

Section Positional.

(** C6 (amended).  [updateReserves] gives the i-th market the i-th entry
    of the response for as long as both exist: such a market keeps its
    address, assets and protocol, and its balances become the entry's two
    reserves keyed by its assets, which [getBalance] reads back.  With at
    least as many entries as markets it returns, the surplus entries
    unused; with fewer it throws on the first missing entry (a
    [TypeError], there is no mismatch error), the markets before it
    holding the reserves already written and the others exactly what they
    held. *)
Theorem updateReserves_positional (provider : JsonRpcProvider)
    (allMarketPairs : list UniswappyV2EthPair) :
  let reserves :=
    getReservesByPairs provider (map _marketAddress allMarketPairs) in
  let after := (updateReserves provider allMarketPairs).2 in
  (length allMarketPairs ≤ length reserves →
     updateReserves provider allMarketPairs
     = (Ok (), zip_with synchronised allMarketPairs reserves))
  ∧ (length reserves < length allMarketPairs →
     updateReserves provider allMarketPairs
     = (Throw UndefinedReserve,
        zip_with synchronised allMarketPairs reserves
          ++ drop (length reserves) allMarketPairs))
  ∧ length after = length allMarketPairs
  ∧ (∀ i marketPair reserve,
       allMarketPairs !! i = Some marketPair →
       reserves !! i = Some reserve →
       after !! i
       = Some (mkPair (_marketAddress marketPair) (_tokens marketPair)
                 (_protocol marketPair)
                 (Lodash.zipObject (_tokens marketPair)
                    [JBigNumber reserve.1; JBigNumber reserve.2]))
       ∧ ∀ t0 t1,
           _tokens marketPair = [t0; t1] → t0 ≠ t1 →
           ∃ updated,
             after !! i = Some updated
             ∧ getBalance t0 updated = (Ok (JBigNumber reserve.1), updated)
             ∧ getBalance t1 updated = (Ok (JBigNumber reserve.2), updated))
  ∧ (∀ i marketPair,
       allMarketPairs !! i = Some marketPair →
       reserves !! i = None →
       after !! i = Some marketPair).
Proof.
  intros reserves after.
  assert (Hafter : after = zip_with synchronised allMarketPairs reserves
                           ++ drop (length reserves) allMarketPairs).
  { unfold after. by rewrite updateReserves_run. }
  assert (Hwritten : ∀ i marketPair reserve,
            allMarketPairs !! i = Some marketPair →
            reserves !! i = Some reserve →
            after !! i = Some (synchronised marketPair reserve)).
  { intros i marketPair reserve Hmarket Hreserve. rewrite Hafter.
    rewrite lookup_app_l.
    - rewrite lookup_zip_with, Hmarket. simpl. by rewrite Hreserve.
    - rewrite length_zip_with.
      apply lookup_lt_Some in Hmarket. apply lookup_lt_Some in Hreserve.
      lia. }
  refine (conj _ (conj _ (conj _ (conj _ _)))).
  - intros Hlength. rewrite updateReserves_run. cbv zeta. fold reserves.
    rewrite decide_True by done. by rewrite drop_ge, app_nil_r by done.
  - intros Hlength. rewrite updateReserves_run. cbv zeta. fold reserves.
    by rewrite decide_False by lia.
  - apply updateReserves_fields.
  - intros i marketPair reserve Hmarket Hreserve.
    rewrite (Hwritten i marketPair reserve Hmarket Hreserve). split.
    + unfold synchronised. by rewrite setReservesViaOrderedBalances_run.
    + intros t0 t1 Htokens distinct.
      exists (synchronised marketPair reserve). split; [done|].
      by apply synchronised_reads.
  - intros i marketPair Hmarket Hreserve.
    apply lookup_ge_None in Hreserve.
    pose proof (lookup_lt_Some _ _ _ Hmarket) as Hi.
    rewrite Hafter, lookup_app_r; rewrite length_zip_with; [|lia].
    rewrite lookup_drop, <- Hmarket. f_equal. lia.
Qed.

Lemma updateReserves_positional_witness :
  updateReserves (Sample.node [] [(1, 2); (3, 4); (5, 6)]%Z)
    [Sample.poolA; Sample.poolB]
  = (Ok (), [synchronised Sample.poolA (1, 2)%Z;
             synchronised Sample.poolB (3, 4)%Z])
  ∧ updateReserves (Sample.node [] [(1, 2)]%Z) [Sample.poolA; Sample.poolB]
    = (Throw UndefinedReserve,
       [synchronised Sample.poolA (1, 2)%Z; Sample.poolB])
  ∧ (∃ updated,
       (updateReserves (Sample.node [] [(1, 2)]%Z)
          [Sample.poolA; Sample.poolB]).2 !! 0%nat = Some updated
       ∧ getBalance "0xWETH" updated = (Ok (JBigNumber 1), updated)
       ∧ getBalance "0xA" updated = (Ok (JBigNumber 2), updated))
  ∧ (updateReserves (Sample.node [] [(1, 2)]%Z)
       [Sample.poolA; Sample.poolB]).2 !! 1%nat = Some Sample.poolB.
Proof.
  destruct (updateReserves_positional
              (Sample.node [] [(1, 2); (3, 4); (5, 6)]%Z)
              [Sample.poolA; Sample.poolB]) as (Hlong & _).
  destruct (updateReserves_positional (Sample.node [] [(1, 2)]%Z)
              [Sample.poolA; Sample.poolB])
    as (_ & Hshort & _ & Hwritten & Hkept).
  split; [|split; [|split]].
  - apply Hlong. simpl. lia.
  - apply Hshort. simpl. lia.
  - destruct (Hwritten 0%nat Sample.poolA (1, 2)%Z) as [_ Hread];
      [reflexivity | reflexivity |].
    apply (Hread "0xWETH" "0xA"); [reflexivity | discriminate].
  - apply (Hkept 1%nat Sample.poolB); reflexivity.
Defined.

End Positional.
